(** * Position relay: fixed-point codec, chunk tracking and remote players

    A shallow embedding of [createRelaySystem] (the relay system of the
    client's noa layer) and of the library functions it calls, followed by
    the properties of the codec, of the visible-chunk tracker and of the
    remote-player life cycle. *)

From Stdlib Require Import ZArith List Lia Strings.Byte Strings.Ascii Floats.SpecFloat.
From stdpp Require Import gmap strings list pretty.
Import ListNotations.

(** ** JavaScript numbers

    A JS [number] is an IEEE-754 binary64 value.  The Standard Library's
    [spec_float] with a 53-bit significand and [emax = 1024] is exactly that
    format; [SFmul], [SFdiv], [SFadd] and [SFsub] round to nearest, ties to
    even, as JS arithmetic does. *)

Definition number : Type := spec_float.

Definition prec : Z := 53.
Definition emax : Z := 1024.

Definition NaN : number := S754_nan.
Definition Infinity : number := S754_infinity false.

(** The number denoted by an integer literal ([64], [100], [1000]...). *)
Definition Z2num (z : Z) : number := binary_normalize prec emax z 0 false.

Definition num_mul : number -> number -> number := SFmul prec emax.
Definition num_div : number -> number -> number := SFdiv prec emax.
Definition num_add : number -> number -> number := SFadd prec emax.
Definition num_sub : number -> number -> number := SFsub prec emax.

(** The number denoted by the decimal literal [n/d] with [d] a power of ten
    ([0.295] is [decimal 295 1000]): the double nearest to the quotient. *)
Definition decimal (n d : Z) : number := num_div (Z2num n) (Z2num d).

Definition isFinite (n : number) : bool :=
  match n with
  | S754_zero _ | S754_finite _ _ _ => true
  | S754_infinity _ | S754_nan => false
  end.

(** The results of [Math.floor]: an integer, kept exactly, or one of the
    three non-finite numbers.  (The sign of a zero result is not kept; no
    consumer below distinguishes [-0] from [0].) *)
Inductive intnum : Type :=
  | IInt (z : Z)
  | INaN
  | IInf (negative : bool).

Global Instance intnum_eq_dec : EqDecision intnum.
Proof. solve_decision. Defined.

(** [Math.floor]: the largest integer not above the argument.  A finite
    double is [(-1)^s * m * 2^e]; [Z.div] rounds toward minus infinity. *)
Definition Math_floor (n : number) : intnum :=
  match n with
  | S754_zero _ => IInt 0
  | S754_finite s m e =>
      if (0 <=? e)%Z then IInt (cond_Zopp s (Zpos m) * 2 ^ e)
      else IInt (cond_Zopp s (Zpos m) / 2 ^ (- e))
  | S754_infinity s => IInf s
  | S754_nan => INaN
  end.

(** An integral result read back as a [number]. *)
Definition num_of_intnum (i : intnum) : number :=
  match i with
  | IInt z => Z2num z
  | INaN => S754_nan
  | IInf s => S754_infinity s
  end.

(** [Math.pow(10, p)] for a small non-negative integer [p]: exact. *)
Definition Math_pow10 (p : Z) : number := Z2num (10 ^ p).

(** [Number.prototype.toString] on the results of [Math.floor]: decimal
    digits with a leading minus sign.  (Integers of magnitude [1e21] and
    above, which JS prints in exponent notation, are outside the model.) *)
Definition Number_toString (i : intnum) : string :=
  match i with
  | IInt z => pretty z
  | INaN => "NaN"
  | IInf false => "Infinity"
  | IInf true => "-Infinity"
  end.

(** ** Typed arrays and the byte helpers of [@latticexyz/utils]

    The helpers [Int32ArrayToUint8Array], [Uint8ArrayToInt32Array],
    [concatUint8Arrays] and [splitUint8Arrays] come from a dependency, not
    from the sources of this repository.  They are thin wrappers around JS
    typed arrays and are modelled by what typed arrays do: an [Int32Array]
    store converts with [ToInt32], a [Uint8Array] is created zero-filled,
    and reading past the end of an array yields [undefined]. *)

Definition Z_of_byte (b : Byte.byte) : Z := Z.of_N (Byte.to_N b).

Definition byte_of_Z (z : Z) : Byte.byte :=
  match Byte.of_N (Z.to_N (z mod 256)) with
  | Some b => b
  | None => Byte.x00
  end.

(** Reduction modulo [2^32] into the signed range, the last step of the
    [ToInt32] conversion. *)
Definition wrap32 (z : Z) : Z := ((z + 2 ^ 31) mod 2 ^ 32 - 2 ^ 31)%Z.

(** Storing a number into an [Int32Array] element applies [ToInt32]: NaN and
    the infinities become [0], an integer is reduced modulo [2^32]. *)
Definition ToInt32 (n : intnum) : Z :=
  match n with
  | IInt z => wrap32 z
  | INaN | IInf _ => 0%Z
  end.

(** The four bytes of an [Int32Array] element as a [Uint8Array] over the
    same buffer shows them: two's complement, in the byte order of the
    platform, which is least significant byte first wherever the client
    runs. *)
Definition int32_to_bytes (i : Z) : list Byte.byte :=
  [byte_of_Z i; byte_of_Z (Z.shiftr i 8);
   byte_of_Z (Z.shiftr i 16); byte_of_Z (Z.shiftr i 24)].

Definition int32_of_bytes (b0 b1 b2 b3 : Byte.byte) : Z :=
  wrap32 (Z_of_byte b0 + 2 ^ 8 * Z_of_byte b1
          + 2 ^ 16 * Z_of_byte b2 + 2 ^ 24 * Z_of_byte b3).

(** [Int32ArrayToUint8Array(input)]: an [Int32Array] of [input.length]
    elements is filled with [int32arr[i] = input[i]] and its buffer is
    returned as bytes. *)
Definition Int32ArrayToUint8Array (input : list intnum) : list Byte.byte :=
  flat_map (fun n => int32_to_bytes (ToInt32 n)) input.

(** [Uint8ArrayToInt32Array(input)]: [new Int32Array(input.buffer)] spread
    into an array.  The constructor raises a [RangeError] when the byte
    length is not a multiple of four: [None]. *)
Fixpoint Uint8ArrayToInt32Array (input : list Byte.byte) : option (list Z) :=
  match input with
  | [] => Some []
  | b0 :: b1 :: b2 :: b3 :: rest =>
      match Uint8ArrayToInt32Array rest with
      | Some ints => Some (int32_of_bytes b0 b1 b2 b3 :: ints)
      | None => None
      end
  | _ => None
  end.

(** [concatUint8Arrays(...arrays)]. *)
Definition concatUint8Arrays (arrays : list (list Byte.byte)) : list Byte.byte :=
  concat arrays.

(** [splitUint8Arrays(data, byteLengths)]: for each requested length a fresh
    [Uint8Array(length)] (zero-filled) receives [array[j] = data[i]] with one
    running index [i] over [data]; a read past the end of [data] is
    [undefined], which a [Uint8Array] stores as [0]. *)
Fixpoint splitUint8Arrays (data : list Byte.byte) (byteLengths : list nat)
  : list (list Byte.byte) :=
  match byteLengths with
  | [] => []
  | len :: rest =>
      take len (data ++ replicate len Byte.x00) :: splitUint8Arrays (drop len data) rest
  end.

(** ** The codec of the relay system *)

Definition PRECISION : Z := 2.
Definition UNRESPONSIVE_PLAYER_CLEANUP : Z := 2000.
Definition TIMEOUT : Z := 1000.
Definition RELAY_CHUNK_SIZE : number := Z2num 64.

Definition toFixedPoint (n : number) : intnum :=
  Math_floor (num_mul n (Math_pow10 PRECISION)).

(** [fromFixedPoint] is only applied to [Int32Array] elements. *)
Definition fromFixedPoint (n : Z) : number :=
  num_div (Z2num n) (Math_pow10 PRECISION).

Definition encodeMessage (position direction : list number) : list Byte.byte :=
  let transformedData := map toFixedPoint (position ++ direction) in
  let data := Int32ArrayToUint8Array transformedData in
  concatUint8Arrays [data].

Record DecodedMessage : Type := {
  position : list number;
  direction : list number;
}.

(** [None] stands for an exception raised while decoding. *)
Definition decodeMessage (data : list Byte.byte) : option DecodedMessage :=
  match splitUint8Arrays data [12; 16]%nat with
  | positionBytes :: directionBytes :: _ =>
      match Uint8ArrayToInt32Array positionBytes,
            Uint8ArrayToInt32Array directionBytes with
      | Some pos, Some dir =>
          Some {| position := map fromFixedPoint pos;
                  direction := map fromFixedPoint dir |}
      | _, _ => None
      end
  | _ => None
  end.


(** ** Chunk index and visible chunks ([@latticexyz/phaserx])

    The chunk helpers are library code that is not part of the sources of
    this repository; they are written down from their description in the
    design: floor division for the chunk of a point, and the chunks that
    overlap an area for the visible set. *)

Record Coord : Type := { coord_x : number; coord_y : number }.

Record VoxelCoord : Type := { voxel_x : number; voxel_y : number; voxel_z : number }.

Record Area : Type := {
  area_x : number;
  area_y : number;
  area_width : number;
  area_height : number;
}.

Record ChunkCoord : Type := { chunk_x : intnum; chunk_y : intnum }.

Global Instance ChunkCoord_eq_dec : EqDecision ChunkCoord.
Proof. solve_decision. Defined.

(** Modelled from the spec: [pixelToChunkCoord] is missing from the sources;
    a chunk coordinate is the floor of the coordinate divided by the chunk
    size, component-wise. *)
Definition pixelToChunkCoord (pixelCoord : Coord) (chunkSize : number) : ChunkCoord :=
  {| chunk_x := Math_floor (num_div (coord_x pixelCoord) chunkSize);
     chunk_y := Math_floor (num_div (coord_y pixelCoord) chunkSize) |}.

(** Modelled from the spec: [CoordMap] is missing from the sources; it is a
    map keyed by coordinates with membership and lookup, enumerated in
    insertion order. *)
Definition CoordMap (T : Type) : Type := list (ChunkCoord * T).

Definition CoordMap_get {T} (m : CoordMap T) (coord : ChunkCoord) : option T :=
  snd <$> List.find (fun kv => bool_decide (fst kv = coord)) m.

Definition CoordMap_has {T} (m : CoordMap T) (coord : ChunkCoord) : bool :=
  match CoordMap_get m coord with Some _ => true | None => false end.

Fixpoint CoordMap_set {T} (m : CoordMap T) (coord : ChunkCoord) (value : T) : CoordMap T :=
  match m with
  | [] => [(coord, value)]
  | (k, w) :: rest =>
      if decide (k = coord) then (k, value) :: rest
      else (k, w) :: CoordMap_set rest coord value
  end.

Definition CoordMap_coords {T} (m : CoordMap T) : list ChunkCoord := map fst m.

(** JS truthiness of an optional boolean ([undefined] is falsy). *)
Definition truthy (v : option bool) : bool :=
  match v with Some b => b | None => false end.

(** The integers [a, a+1, ..., b] of a [for (x = a; x <= b; x++)] loop. *)
Definition fromTo (a b : Z) : list Z := seqZ a (b - a + 1).

(** Modelled from the spec: [getChunksInArea] is missing from the sources;
    the chunks overlapping an area are those from the chunk of its top-left
    corner to the chunk of its bottom-right corner, both included.  The
    result is defined when the four corner coordinates are integers, that
    is for an area with finite coordinates. *)
Definition getChunksInArea (area : Area) (chunkSize : number) : option (CoordMap bool) :=
  let topLeft :=
    pixelToChunkCoord {| coord_x := area_x area; coord_y := area_y area |} chunkSize in
  let bottomRight :=
    pixelToChunkCoord {| coord_x := num_add (area_x area) (area_width area);
                         coord_y := num_add (area_y area) (area_height area) |} chunkSize in
  match chunk_x topLeft, chunk_x bottomRight, chunk_y topLeft, chunk_y bottomRight with
  | IInt x0, IInt x1, IInt y0, IInt y1 =>
      Some (foldl (fun chunksInArea x =>
                     foldl (fun chunksInArea y =>
                              CoordMap_set chunksInArea
                                {| chunk_x := IInt x; chunk_y := IInt y |} true)
                           chunksInArea (fromTo y0 y1))
                  [] (fromTo x0 x1))
  | _, _, _, _ => None
  end.

(** Modelled from the spec: [subtract] of coordinate maps (the diff of two
    visible sets) is missing from the sources: the coordinates of [from]
    that [subtrahend] does not hold. *)
Definition subtract (from subtrahend : CoordMap bool) : CoordMap bool :=
  foldl (fun result coord =>
           if truthy (CoordMap_get subtrahend coord) then result
           else CoordMap_set result coord true)
        [] (CoordMap_coords from).

Record ChunkEvents : Type := {
  addedChunks : list ChunkCoord;
  removedChunks : list ChunkCoord;
}.

(** Modelled from the spec: [createChunks] is missing from the sources.  On
    each new area (grown by [padding] on every side) the full set of
    overlapping chunks is computed and diffed against the previous set; the
    new set becomes current, then one added event per newly covered chunk
    and one removed event per chunk that fell out are emitted.  The function
    below is the reaction to one area, from the current set. *)
Definition createChunks (chunkSize padding : number) (worldView : Area)
    (current : CoordMap bool) : option (CoordMap bool * ChunkEvents) :=
  let visibleArea :=
    {| area_x := num_sub (area_x worldView) padding;
       area_y := num_sub (area_y worldView) padding;
       area_width := num_add (area_width worldView) (num_mul (Z2num 2) padding);
       area_height := num_add (area_height worldView) (num_mul (Z2num 2) padding) |} in
  match getChunksInArea visibleArea chunkSize with
  | Some chunksInArea =>
      Some (chunksInArea,
            {| addedChunks := CoordMap_coords (subtract chunksInArea current);
               removedChunks := CoordMap_coords (subtract current chunksInArea) |})
  | None => None
  end.

Definition createChunkTopicMessage (chunk : ChunkCoord) : string :=
  "c(" +:+ Number_toString (chunk_x chunk) +:+ "," +:+ Number_toString (chunk_y chunk) +:+ ")".

Definition HALF_LENGTH : number := RELAY_CHUNK_SIZE.

(** The map of [currentArea$]. *)
Definition currentArea (c : VoxelCoord) : Area :=
  {| area_x := num_sub (voxel_x c) HALF_LENGTH;
     area_y := num_sub (voxel_z c) HALF_LENGTH;
     area_width := num_mul HALF_LENGTH (Z2num 2);
     area_height := num_mul HALF_LENGTH (Z2num 2) |}.

(** The map of [currentChunk$]. *)
Definition currentChunk (vc : VoxelCoord) : ChunkCoord :=
  pixelToChunkCoord {| coord_x := voxel_x vc; coord_y := voxel_z vc |} RELAY_CHUNK_SIZE.

(** ** The entity-component store ([@latticexyz/recs])

    A component maps entity indices to values; the world hands out one index
    per entity id. *)

Abbreviation EntityID := string (only parsing).
Abbreviation EntityIndex := nat (only parsing).

Record PositionValue : Type := { pos_x : number; pos_y : number; pos_z : number }.

Record DirectionValue : Type := { qx : number; qy : number; qz : number; qw : number }.

Record Components : Type := {
  PlayerPosition : gmap nat PositionValue;
  PlayerRelayerChunkPosition : gmap nat ChunkCoord;
  PlayerDirection : gmap nat DirectionValue;
  PlayerLastMessage : gmap nat Z;
}.

Fixpoint entityToIndex (entities : list EntityID) (id : EntityID) : option EntityIndex :=
  match entities with
  | [] => None
  | e :: rest =>
      if decide (e = id) then Some 0%nat else S <$> entityToIndex rest id
  end.

(** Modelled from the spec: [world.registerEntity] is missing from the
    sources; the store keeps one entity per address: the entity of a known
    id is found again, an unknown id gets the next index. *)
Definition registerEntity (entities : list EntityID) (id : EntityID)
  : list EntityID * EntityIndex :=
  match entityToIndex entities id with
  | Some index => (entities, index)
  | None => (entities ++ [id], length entities)
  end.

(** [getComponentValueStrict] raises when the entity has no value: [None]. *)
Definition getComponentValueStrict {V} (component : gmap nat V) (entity : EntityIndex)
  : option V := component !! entity.

Inductive QueryFragment : Type :=
  | Has {V : Type} (component : gmap nat V)
  | HasValue {V : Type} `{EqDecision V} (component : gmap nat V) (value : V).

Definition passesQueryFragment (entity : EntityIndex) (fragment : QueryFragment) : bool :=
  match fragment with
  | Has component =>
      match component !! entity with Some _ => true | None => false end
  | HasValue component value =>
      match component !! entity with
      | Some v => bool_decide (v = value)
      | None => false
      end
  end.

Definition fragmentEntities (fragment : QueryFragment) : gset nat :=
  match fragment with
  | Has component => dom component
  | HasValue component value => dom (filter (fun kv => snd kv = value) component)
  end.

(** Modelled from the spec: [runQuery] is missing from the sources; it is
    the query primitive "all entities having field X" and "all entities
    having field X equal to value V": the entities of the first fragment
    that pass every later fragment. *)
Definition runQuery (fragments : list QueryFragment) : gset nat :=
  match fragments with
  | [] => ∅
  | first :: rest =>
      filter (fun entity => forallb (passesQueryFragment entity) rest = true)
             (fragmentEntities first)
  end.

(** ** The relay system *)

Definition removePlayerComponent (entity : EntityIndex) (c : Components) : Components :=
  {| PlayerPosition := delete entity (PlayerPosition c);
     PlayerDirection := delete entity (PlayerDirection c);
     PlayerRelayerChunkPosition := delete entity (PlayerRelayerChunkPosition c);
     PlayerLastMessage := delete entity (PlayerLastMessage c) |}.

(** The transport: the subscribed topics and the messages pushed so far. *)
Record Relay : Type := {
  subscribed : gset string;
  pushed : list (string * list Byte.byte);
}.

Definition relay_subscribe (topic : string) (r : Relay) : Relay :=
  {| subscribed := {[topic]} ∪ subscribed r; pushed := pushed r |}.

Definition relay_unsubscribe (topic : string) (r : Relay) : Relay :=
  {| subscribed := subscribed r ∖ {[topic]}; pushed := pushed r |}.

Definition relay_push (topic : string) (payload : list Byte.byte) (r : Relay) : Relay :=
  {| subscribed := subscribed r; pushed := pushed r ++ [(topic, payload)] |}.

Record State : Type := {
  entities : list EntityID;
  components : Components;
  visibleChunks : CoordMap bool;
  relay : Relay;
}.

Definition initialState : State :=
  {| entities := [];
     components := {| PlayerPosition := ∅; PlayerRelayerChunkPosition := ∅;
                      PlayerDirection := ∅; PlayerLastMessage := ∅ |};
     visibleChunks := [];
     relay := {| subscribed := ∅; pushed := [] |} |}.

(** The subscriber of [addedChunks$]. *)
Definition addedChunkSubscription (chunk : ChunkCoord) (s : State) : State :=
  {| entities := entities s;
     components := components s;
     visibleChunks := visibleChunks s;
     relay := relay_subscribe (createChunkTopicMessage chunk) (relay s) |}.

(** The subscriber of [removedChunks$]. *)
Definition removedChunksSubcription (chunk : ChunkCoord) (s : State) : State :=
  let c := components s in
  let removedPlayers :=
    runQuery [Has (PlayerDirection c); Has (PlayerPosition c);
              HasValue (PlayerRelayerChunkPosition c) chunk] in
  {| entities := entities s;
     components :=
       foldl (fun c r => removePlayerComponent r c) c (elements removedPlayers);
     visibleChunks := visibleChunks s;
     relay := relay_unsubscribe (createChunkTopicMessage chunk) (relay s) |}.

(** [relayPositionAndDirection], with [chunk] the value read from
    [currentChunkComputed]. *)
Definition relayPositionAndDirection (chunk : ChunkCoord)
    (position direction : list number) (r : Relay) : Relay :=
  relay_push (createChunkTopicMessage chunk) (encodeMessage position direction) r.

(** An array element read by destructuring; a missing one is [undefined],
    which arithmetic turns into [NaN]. *)
Definition element (l : list number) (i : nat) : number := nth i l NaN.

(** The system on [relay.event$]; [now] is the value of [Date.now()] and
    [connectedAddress] the value of [connectedAddress.get()]. *)
Definition onRelayEvent (connectedAddress : option string) (now : Z)
    (address : string) (data : list Byte.byte) (s : State) : option State :=
  match decodeMessage data with
  | None => None
  | Some decoded =>
      let x := element (position decoded) 0 in
      let y := element (position decoded) 1 in
      let z := element (position decoded) 2 in
      let dqx := element (direction decoded) 0 in
      let dqy := element (direction decoded) 1 in
      let dqz := element (direction decoded) 2 in
      let dqw := element (direction decoded) 3 in
      if decide (Some address = connectedAddress) then Some s
      else
        let playerChunk :=
          pixelToChunkCoord {| coord_x := x; coord_y := z |} RELAY_CHUNK_SIZE in
        if negb (CoordMap_has (visibleChunks s) playerChunk)
           || negb (truthy (CoordMap_get (visibleChunks s) playerChunk))
        then Some s
        else
          let '(entities', entity) := registerEntity (entities s) address in
          let c := components s in
          Some {| entities := entities';
                  components :=
                    {| PlayerPosition :=
                         <[entity := {| pos_x := x; pos_y := y; pos_z := z |}]>
                           (PlayerPosition c);
                       PlayerDirection :=
                         <[entity := {| qx := dqx; qy := dqy; qz := dqz; qw := dqw |}]>
                           (PlayerDirection c);
                       PlayerRelayerChunkPosition := PlayerRelayerChunkPosition c;
                       PlayerLastMessage := <[entity := now]> (PlayerLastMessage c) |};
                  visibleChunks := visibleChunks s;
                  relay := relay s |}
  end.

(** One pass of the cleanup loop, for one player. *)
Definition cleanupPlayer (timeOut : Z) (acc : option Components) (player : EntityIndex)
  : option Components :=
  match acc with
  | None => None
  | Some c =>
      match getComponentValueStrict (PlayerLastMessage c) player with
      | None => None
      | Some lastMessage =>
          if (lastMessage <? timeOut)%Z then Some (removePlayerComponent player c)
          else Some c
      end
  end.

(** The system on [timer(UNRESPONSIVE_PLAYER_CLEANUP,
    UNRESPONSIVE_PLAYER_CLEANUP)]; [now] is the value of [Date.now()]. *)
Definition cleanupComponents (now : Z) (c : Components) : option Components :=
  let allPlayers := runQuery [Has (PlayerLastMessage c)] in
  let timeOut := (now - TIMEOUT)%Z in
  foldl (cleanupPlayer timeOut) (Some c) (elements allPlayers).

Definition onCleanupTick (now : Z) (s : State) : option State :=
  match cleanupComponents now (components s) with
  | None => None
  | Some c =>
      Some {| entities := entities s; components := c;
              visibleChunks := visibleChunks s; relay := relay s |}
  end.

(** The time of the [k]-th tick of the cleanup timer, from its creation. *)
Definition cleanupTickTime (k : nat) : Z :=
  (UNRESPONSIVE_PLAYER_CLEANUP + Z.of_nat k * UNRESPONSIVE_PLAYER_CLEANUP)%Z.

(** The reaction to one area of [currentArea$]: [createChunks] replaces the
    visible set, then the added and removed events reach their subscribers. *)
Definition onPlayerPosition (c : VoxelCoord) (s : State) : option State :=
  match createChunks RELAY_CHUNK_SIZE (Z2num 0) (currentArea c) (visibleChunks s) with
  | None => None
  | Some (chunksInArea, events) =>
      let s1 := {| entities := entities s; components := components s;
                   visibleChunks := chunksInArea; relay := relay s |} in
      let s2 := foldl (fun s chunk => addedChunkSubscription chunk s) s1
                      (addedChunks events) in
      Some (foldl (fun s chunk => removedChunksSubcription chunk s) s2
                  (removedChunks events))
  end.

(** The inputs of the system, one constructor per source of events. *)
Inductive Event : Type :=
  | PlayerPositionSample (c : VoxelCoord)
  | AddedChunk (chunk : ChunkCoord)
  | RemovedChunk (chunk : ChunkCoord)
  | PoseSample (chunk : ChunkCoord) (position direction : list number)
  | RelayEvent (now : Z) (address : string) (data : list Byte.byte)
  | CleanupTick (now : Z).

Definition step (connectedAddress : option string) (ev : Event) (s : State)
  : option State :=
  match ev with
  | PlayerPositionSample c => onPlayerPosition c s
  | AddedChunk chunk => Some (addedChunkSubscription chunk s)
  | RemovedChunk chunk => Some (removedChunksSubcription chunk s)
  | PoseSample chunk position direction =>
      Some {| entities := entities s; components := components s;
              visibleChunks := visibleChunks s;
              relay := relayPositionAndDirection chunk position direction (relay s) |}
  | RelayEvent now address data => onRelayEvent connectedAddress now address data s
  | CleanupTick now => onCleanupTick now s
  end.

(** The states the system can be in: those reached from the initial state by
    a sequence of events, none of which raised. *)
Inductive reachable (connectedAddress : option string) : State -> Prop :=
  | reachable_initial : reachable connectedAddress initialState
  | reachable_step s ev s' :
      reachable connectedAddress s ->
      step connectedAddress ev s = Some s' ->
      reachable connectedAddress s'.

(** Values of little-endian byte strings, for stating the wire layout
    independently of the conversion functions. *)
Definition le_value (bs : list Byte.byte) : Z :=
  foldr (fun b acc => (Z_of_byte b + 256 * acc)%Z) 0%Z bs.

(** The four bytes of the [i]-th 4-byte field of a payload. *)
Definition field (i : nat) (payload : list Byte.byte) : list Byte.byte :=
  take 4 (drop (4 * i) payload).

(** A buffer cut or zero-filled to [n] bytes. *)
Definition pad (n : nat) (data : list Byte.byte) : list Byte.byte :=
  take n (data ++ replicate n Byte.x00).

(** The scalar that [decodeMessage] reads from the [i]-th field. *)
Definition scalarOfField (data : list Byte.byte) (i : nat) : number :=
  fromFixedPoint (wrap32 (le_value (field i (pad 28 data)))).

Definition int32_range (q : Z) : Prop := (- 2 ^ 31 <= q < 2 ^ 31)%Z.

(** The quantized integer that a scalar is sent as. *)
Definition quantized (v : number) : Z := ToInt32 (toFixedPoint v).

(** ** Sample inputs *)

Definition zero : number := Z2num 0.

(** The identity quaternion [0, 0, 0, 1]. *)
Definition unitDirection : list number := [zero; zero; zero; Z2num 1].

(** A position on the x axis. *)
Definition onAxis (x : number) : list number := [x; zero; zero].

Definition observerAt (x : Z) : VoxelCoord :=
  {| voxel_x := Z2num x; voxel_y := zero; voxel_z := zero |}.

Definition chunkAt (x y : Z) : ChunkCoord := {| chunk_x := IInt x; chunk_y := IInt y |}.

(** The chunks of a rectangle of chunk coordinates, in enumeration order. *)
Definition chunkGrid (x0 x1 y0 y1 : Z) : list ChunkCoord :=
  flat_map (fun x => map (chunkAt x) (fromTo y0 y1)) (fromTo x0 x1).

(** The state once the observer has been sampled at the origin. *)
Definition stateAtOrigin : State :=
  default initialState (onPlayerPosition (observerAt 0) initialState).

(** A 28-byte message placing its sender at the origin. *)
Definition originMessage : list Byte.byte := encodeMessage (onAxis zero) unitDirection.

(** The same state once the message of a player at the origin has been
    accepted. *)
Definition stateWithPlayer : State :=
  default stateAtOrigin (onRelayEvent None 5 "0xB0B" originMessage stateAtOrigin).

(** The same state once a cleanup tick at time 2000 has removed the player. *)
Definition stateAfterCleanup : State :=
  default stateWithPlayer (onCleanupTick 2000 stateWithPlayer).

(** The state with a second player, accepted at time 1500. *)
Definition stateWithTwoPlayers : State :=
  default stateWithPlayer (onRelayEvent None 1500 "0xCA7" originMessage stateWithPlayer).

(** What the store holds for one entity, component by component. *)
Definition playerState (c : Components) (entity : EntityIndex)
  : option PositionValue * option DirectionValue * option ChunkCoord * option Z :=
  (PlayerPosition c !! entity, PlayerDirection c !! entity,
   PlayerRelayerChunkPosition c !! entity, PlayerLastMessage c !! entity).

Definition noPlayerState
  : option PositionValue * option DirectionValue * option ChunkCoord * option Z :=
  (None, None, None, None).

(** ** Characters of strings, for the properties of topics *)

Fixpoint has_char (c : ascii) (s : string) : bool :=
  match s with
  | EmptyString => false
  | String a rest => if decide (a = c) then true else has_char c rest
  end.

Definition is_digit (c : ascii) : bool :=
  bool_decide (c ∈ ["0"; "1"; "2"; "3"; "4"; "5"; "6"; "7"; "8"; "9"]%char).

(** ** Auxiliary notions for the properties of the relay system *)

(** The chunk that the handler computes for a decoded message. *)
Definition playerChunkOf (decoded : DecodedMessage) : ChunkCoord :=
  pixelToChunkCoord {| coord_x := element (position decoded) 0;
                       coord_y := element (position decoded) 2 |} RELAY_CHUNK_SIZE.

Definition positionOf (decoded : DecodedMessage) : PositionValue :=
  {| pos_x := element (position decoded) 0;
     pos_y := element (position decoded) 1;
     pos_z := element (position decoded) 2 |}.

Definition directionOf (decoded : DecodedMessage) : DirectionValue :=
  {| qx := element (direction decoded) 0;
     qy := element (direction decoded) 1;
     qz := element (direction decoded) 2;
     qw := element (direction decoded) 3 |}.

(** The topics of the chunks of a visible set. *)
Definition topicsOf (m : CoordMap bool) : gset string :=
  list_to_set (map createChunkTopicMessage (CoordMap_coords m)).

(** Every chunk held by a visible set is held with the value [true]. *)
Definition allVisible (m : CoordMap bool) : Prop :=
  forall c v, CoordMap_get m c = Some v -> v = true.

(** The subscriptions are those of the visible chunks. *)
Definition subscriptionsFollow (s : State) : Prop :=
  subscribed (relay s) = topicsOf (visibleChunks s) /\ allVisible (visibleChunks s).

(** The events that the system receives from outside; the added and removed
    chunk events only occur as part of the reaction to a position sample. *)
Definition external (ev : Event) : Prop :=
  match ev with
  | AddedChunk _ | RemovedChunk _ => False
  | _ => True
  end.

(** The store holds whole players, each under a registered entity, and one
    entity per address. *)
Definition coherent (s : State) : Prop :=
  NoDup (entities s) /\
  forall entity,
    (is_Some (PlayerPosition (components s) !! entity) <->
     is_Some (PlayerLastMessage (components s) !! entity)) /\
    (is_Some (PlayerDirection (components s) !! entity) <->
     is_Some (PlayerLastMessage (components s) !! entity)) /\
    (is_Some (PlayerLastMessage (components s) !! entity) ->
     entities s !! entity <> None).

(** The state after the handler has accepted a decoded message. *)
Definition upsertPlayer (now : Z) (address : string) (decoded : DecodedMessage)
    (s : State) : State :=
  let registered := registerEntity (entities s) address in
  {| entities := fst registered;
     components :=
       {| PlayerPosition :=
            <[snd registered := positionOf decoded]> (PlayerPosition (components s));
          PlayerDirection :=
            <[snd registered := directionOf decoded]> (PlayerDirection (components s));
          PlayerRelayerChunkPosition := PlayerRelayerChunkPosition (components s);
          PlayerLastMessage :=
            <[snd registered := now]> (PlayerLastMessage (components s)) |};
     visibleChunks := visibleChunks s;
     relay := relay s |}.

(** A sequence of events handled one after the other; [None] when one of
    them raises. *)
Fixpoint run (connectedAddress : option string) (evs : list Event) (s : State)
  : option State :=
  match evs with
  | [] => Some s
  | ev :: rest =>
      match step connectedAddress ev s with
      | Some s1 => run connectedAddress rest s1
      | None => None
      end
  end.

(** ** Block icons ([MaterialType], [Textures], [Blocks], [getBlockIconUrl]) *)

Module MaterialType.

Inductive t : Type :=
  | Grass | GrassSide | GrassBottom | Dirt | Log | LogTop | Sand | Stone
  | Water | TransparentWater | Cobblestone | Coal | Iron | Gold | Diamond
  | Leaves | Planks | Crafting | CraftingSide | CraftingBottom.

End MaterialType.

(** The keys of [BlockType]: those of the [Blocks] table, whose type has one
    entry per key. *)
Module BlockType.

Inductive t : Type :=
  | Air | Grass | Dirt | Log | Sand | Stone | Water | Cobblestone | Coal
  | Crafting | Iron | Gold | Diamond | Leaves | Planks.

Global Instance eq_dec : EqDecision t.
Proof. solve_decision. Defined.

End BlockType.

Definition Textures (material : MaterialType.t) : string :=
  match material with
  | MaterialType.Grass => "./assets/blocks/4-Grass_block-top.png"
  | MaterialType.GrassSide => "./assets/blocks/4-Grass_block-side.png"
  | MaterialType.GrassBottom => "./assets/blocks/4-Grass_block-bottom.png"
  | MaterialType.Dirt => "./assets/blocks/3-Dirt.png"
  | MaterialType.Log => "./assets/blocks/log_oak.png"
  | MaterialType.LogTop => "./assets/blocks/log_oak_top.png"
  | MaterialType.Sand => "./assets/blocks/07-Sand.png"
  | MaterialType.Stone => "./assets/blocks/stone.png"
  | MaterialType.Water => "./assets/blocks/10-Water.png"
  | MaterialType.TransparentWater => "./assets/blocks/10-Water.png"
  | MaterialType.Cobblestone => "./assets/blocks/1-Cobblestone.png"
  | MaterialType.Coal => "./assets/blocks/39-Coal_Ore.png"
  | MaterialType.Iron => "./assets/blocks/38-Iron_Ore.png"
  | MaterialType.Gold => "./assets/blocks/40-Gold_Ore.png"
  | MaterialType.Diamond => "./assets/blocks/diamond_ore.png"
  | MaterialType.Leaves => "./assets/blocks/06-Leaves.png"
  | MaterialType.Planks => "./assets/blocks/05-Wood_plank.png"
  | MaterialType.Crafting => "./assets/blocks/46-Crafting_Table-0-top.png"
  | MaterialType.CraftingSide => "./assets/blocks/46-Crafting_Table-1-sides.png"
  | MaterialType.CraftingBottom => "./assets/blocks/46-Crafting_Table-2-bottom.png"
  end.

(** The [material] of a block: one material, or an array of them. *)
Inductive BlockMaterial : Type :=
  | OneMaterial (material : MaterialType.t)
  | MaterialArray (materials : list MaterialType.t).

Record Block : Type := {
  material : BlockMaterial;
  opaque : option bool;
  fluid : option bool;
  solid : option bool;
}.

Definition plainBlock (m : BlockMaterial) : Block :=
  {| material := m; opaque := None; fluid := None; solid := None |}.

Definition Blocks (blockType : BlockType.t) : option Block :=
  match blockType with
  | BlockType.Air => None
  | BlockType.Grass =>
      Some (plainBlock (MaterialArray [MaterialType.Grass; MaterialType.GrassSide]))
  | BlockType.Dirt => Some (plainBlock (OneMaterial MaterialType.Dirt))
  | BlockType.Log =>
      Some (plainBlock (MaterialArray [MaterialType.LogTop; MaterialType.Log]))
  | BlockType.Sand => Some (plainBlock (OneMaterial MaterialType.Sand))
  | BlockType.Stone => Some (plainBlock (OneMaterial MaterialType.Stone))
  | BlockType.Water =>
      Some {| material := MaterialArray [MaterialType.Water; MaterialType.TransparentWater;
                                         MaterialType.TransparentWater];
              opaque := Some false; fluid := Some true; solid := Some false |}
  | BlockType.Cobblestone => Some (plainBlock (OneMaterial MaterialType.Cobblestone))
  | BlockType.Coal => Some (plainBlock (OneMaterial MaterialType.Coal))
  | BlockType.Crafting =>
      Some (plainBlock (MaterialArray [MaterialType.Crafting; MaterialType.CraftingBottom;
                                       MaterialType.CraftingSide]))
  | BlockType.Iron => Some (plainBlock (OneMaterial MaterialType.Iron))
  | BlockType.Gold => Some (plainBlock (OneMaterial MaterialType.Gold))
  | BlockType.Diamond => Some (plainBlock (OneMaterial MaterialType.Diamond))
  | BlockType.Leaves => Some (plainBlock (OneMaterial MaterialType.Leaves))
  | BlockType.Planks => Some (plainBlock (OneMaterial MaterialType.Planks))
  end.

(** [getBlockIconUrl]; [None] is [undefined], the value of [Textures] at the
    missing first element of an empty material array. *)
Definition getBlockIconUrl (blockType : BlockType.t) : option string :=
  match Blocks blockType with
  | None => Some ""
  | Some block =>
      match material block with
      | MaterialArray materials => Textures <$> materials !! 0%nat
      | OneMaterial m => Some (Textures m)
      end
  end.

(** The last [n] characters of a string. *)
Definition lastChars (n : nat) (s : string) : string :=
  String.substring (String.length s - n) n s.

(** * Properties *)

(** ** Bytes and 32-bit integers *)

Section Bytes.

Local Open Scope Z_scope.

Lemma Z_of_byte_range b : 0 <= Z_of_byte b < 256.
Proof.
  unfold Z_of_byte. pose proof (Byte.to_N_bounded b). lia.
Qed.

Lemma Z_of_byte_of_Z z : Z_of_byte (byte_of_Z z) = z mod 256.
Proof.
  unfold Z_of_byte, byte_of_Z.
  assert (Hr : 0 <= z mod 256 < 256) by (apply Z.mod_pos_bound; lia).
  destruct (Byte.of_N (Z.to_N (z mod 256))) as [b|] eqn:E.
  - apply Byte.to_of_N in E. rewrite E. lia.
  - apply Byte.of_N_None_iff in E. lia.
Qed.

Lemma wrap32_range z : int32_range (wrap32 z).
Proof.
  unfold int32_range, wrap32.
  pose proof (Z.mod_pos_bound (z + 2 ^ 31) (2 ^ 32)). lia.
Qed.

Lemma wrap32_id z : int32_range z -> wrap32 z = z.
Proof.
  unfold int32_range, wrap32. intros H.
  rewrite Z.mod_small; lia.
Qed.

Lemma wrap32_mod z : wrap32 (z mod 2 ^ 32) = wrap32 z.
Proof.
  unfold wrap32. f_equal.
  rewrite Zplus_mod_idemp_l. reflexivity.
Qed.

Lemma wrap32_idem z : wrap32 (wrap32 z) = wrap32 z.
Proof. apply wrap32_id, wrap32_range. Qed.

Lemma ToInt32_range n : int32_range (ToInt32 n).
Proof.
  destruct n; simpl; [apply wrap32_range | |]; unfold int32_range; lia.
Qed.

(** The little-endian digits of an integer add up to it modulo [2^32]. *)
Lemma le_digits i :
  i mod 256 + 2 ^ 8 * ((i / 2 ^ 8) mod 256)
  + 2 ^ 16 * ((i / 2 ^ 16) mod 256) + 2 ^ 24 * ((i / 2 ^ 24) mod 256)
  = i mod 2 ^ 32.
Proof.
  change (2 ^ 32) with (2 ^ 8 * (2 ^ 8 * (2 ^ 8 * 2 ^ 8))).
  rewrite (Z.rem_mul_r i (2 ^ 8)) by lia.
  rewrite (Z.rem_mul_r (i / 2 ^ 8) (2 ^ 8)) by lia.
  rewrite (Z.rem_mul_r (i / 2 ^ 8 / 2 ^ 8) (2 ^ 8)) by lia.
  rewrite !Z.div_div by lia.
  change (2 ^ 8 * 2 ^ 8) with (2 ^ 16).
  change (2 ^ 16 * 2 ^ 8) with (2 ^ 24).
  change (2 ^ 8) with 256. lia.
Qed.

Lemma le_value_int32_to_bytes i : le_value (int32_to_bytes i) = i mod 2 ^ 32.
Proof.
  unfold le_value, int32_to_bytes. cbn [foldr].
  rewrite !Z_of_byte_of_Z, !Z.shiftr_div_pow2 by lia.
  rewrite <- le_digits. lia.
Qed.

Lemma int32_of_to_bytes i :
  match int32_to_bytes i with
  | [b0; b1; b2; b3] => int32_of_bytes b0 b1 b2 b3 = wrap32 i
  | _ => False
  end.
Proof.
  unfold int32_to_bytes, int32_of_bytes.
  rewrite !Z_of_byte_of_Z, !Z.shiftr_div_pow2 by lia.
  rewrite le_digits. apply wrap32_mod.
Qed.

Lemma int32_to_bytes_inj i j :
  int32_range i -> int32_range j ->
  int32_to_bytes i = int32_to_bytes j -> i = j.
Proof.
  intros Hi Hj E.
  rewrite <- (wrap32_id i Hi), <- (wrap32_id j Hj).
  rewrite <- (wrap32_mod i), <- (wrap32_mod j).
  rewrite <- !le_value_int32_to_bytes, E. reflexivity.
Qed.

End Bytes.

(** ** The codec *)

Section Codec.

Lemma lookup_pad n data i :
  pad n data !! i =
  if decide (i < n)%nat then Some (default Byte.x00 (data !! i)) else None.
Proof.
  unfold pad. case_decide as Hi.
  - rewrite lookup_take_lt by done.
    destruct (data !! i) as [b|] eqn:E.
    + by rewrite (lookup_app_l_Some _ _ _ _ E).
    + apply lookup_ge_None in E.
      rewrite lookup_app_r by done.
      rewrite lookup_replicate_2 by lia. done.
  - apply lookup_take_ge. lia.
Qed.

Lemma length_pad n data : length (pad n data) = n.
Proof.
  unfold pad. rewrite length_take, length_app, length_replicate. lia.
Qed.

Lemma pad_id n data : length data = n -> pad n data = data.
Proof.
  intros <-. unfold pad. apply take_app_length.
Qed.

Lemma pad_pad n m data : (n <= m)%nat -> pad n (pad m data) = pad n data.
Proof.
  intros Hnm. apply list_eq. intros i.
  rewrite !lookup_pad.
  repeat case_decide; try done; lia.
Qed.

Lemma drop_pad n k data : drop n (pad (n + k) data) = pad k (drop n data).
Proof.
  apply list_eq. intros i.
  rewrite lookup_drop, !lookup_pad, lookup_drop.
  repeat case_decide; try done; lia.
Qed.

Lemma splitUint8Arrays_message data :
  splitUint8Arrays data [12; 16]%nat = [pad 12 data; pad 16 (drop 12 data)].
Proof. reflexivity. Qed.

Lemma Uint8ArrayToInt32Array_words k :
  forall input, length input = (4 * k)%nat ->
    exists ints, Uint8ArrayToInt32Array input = Some ints /\ length ints = k.
Proof.
  induction k as [|k IH]; intros input Hlen.
  - destruct input; [|discriminate]. by exists [].
  - destruct input as [|b0 [|b1 [|b2 [|b3 rest]]]]; simpl in Hlen; try lia.
    destruct (IH rest) as (ints & E & Hl); [lia|].
    exists (int32_of_bytes b0 b1 b2 b3 :: ints).
    cbn [Uint8ArrayToInt32Array]. rewrite E. by rewrite <- Hl.
Qed.

Lemma Uint8ArrayToInt32Array_of_ints (ints : list Z) :
  Forall int32_range ints ->
  Uint8ArrayToInt32Array (flat_map int32_to_bytes ints) = Some ints.
Proof.
  induction 1 as [|i ints Hi _ IH]; [done|].
  cbn [flat_map]. pose proof (int32_of_to_bytes i) as Hb.
  destruct (int32_to_bytes i) as [|b0 [|b1 [|b2 [|b3 [|]]]]]; try done.
  cbn [app Uint8ArrayToInt32Array]. rewrite IH, Hb.
  by rewrite wrap32_id.
Qed.

Lemma Int32ArrayToUint8Array_flat_map input :
  Int32ArrayToUint8Array input = flat_map int32_to_bytes (map ToInt32 input).
Proof.
  unfold Int32ArrayToUint8Array.
  induction input as [|n input IH]; [done|].
  cbn [flat_map map]. by rewrite IH.
Qed.

Lemma length_flat_map_int32 (ints : list Z) :
  length (flat_map int32_to_bytes ints) = (4 * length ints)%nat.
Proof.
  induction ints as [|i ints IH]; [done|].
  cbn [flat_map]. rewrite length_app, IH. simpl. lia.
Qed.

Lemma encodeMessage_flat_map position direction :
  encodeMessage position direction =
  flat_map int32_to_bytes (map quantized (position ++ direction)).
Proof.
  unfold encodeMessage, concatUint8Arrays. cbn [concat].
  rewrite app_nil_r, Int32ArrayToUint8Array_flat_map.
  by rewrite map_map.
Qed.

Lemma length_encodeMessage position direction :
  length (encodeMessage position direction) =
  (4 * (length position + length direction))%nat.
Proof.
  rewrite encodeMessage_flat_map, length_flat_map_int32.
  by rewrite length_map, length_app.
Qed.

Lemma quantized_range v : int32_range (quantized v).
Proof. apply ToInt32_range. Qed.

(** A payload is always decoded, as seven integers: three from its first
    twelve bytes and four from the next sixteen, missing bytes read as zero. *)
Lemma decodeMessage_words data :
  exists pos dir,
    Uint8ArrayToInt32Array (pad 12 data) = Some pos /\ length pos = 3%nat /\
    Uint8ArrayToInt32Array (pad 16 (drop 12 data)) = Some dir /\ length dir = 4%nat /\
    decodeMessage data =
      Some {| position := map fromFixedPoint pos; direction := map fromFixedPoint dir |}.
Proof.
  destruct (Uint8ArrayToInt32Array_words 3 (pad 12 data)) as (pos & Ep & Lp);
    [apply length_pad|].
  destruct (Uint8ArrayToInt32Array_words 4 (pad 16 (drop 12 data))) as (dir & Ed & Ld);
    [apply length_pad|].
  exists pos, dir. repeat split; try done.
  unfold decodeMessage. rewrite splitUint8Arrays_message. by rewrite Ep, Ed.
Qed.

Lemma decodeMessage_total data : is_Some (decodeMessage data).
Proof.
  destruct (decodeMessage_words data) as (pos & dir & _ & _ & _ & _ & E).
  rewrite E. by eexists.
Qed.

Lemma decodeMessage_pad data : decodeMessage (pad 28 data) = decodeMessage data.
Proof.
  unfold decodeMessage. rewrite !splitUint8Arrays_message.
  rewrite pad_pad by lia.
  change 28%nat with (12 + 16)%nat. rewrite drop_pad.
  by rewrite pad_pad by lia.
Qed.

(** Decoding what was encoded gives back the quantized integers, divided by
    the scale. *)
Lemma decodeMessage_encodeMessage position direction :
  length position = 3%nat -> length direction = 4%nat ->
  decodeMessage (encodeMessage position direction) =
    Some {| position := map (fun v => fromFixedPoint (quantized v)) position;
            direction := map (fun v => fromFixedPoint (quantized v)) direction |}.
Proof.
  intros Hp Hd.
  unfold decodeMessage. rewrite splitUint8Arrays_message.
  rewrite encodeMessage_flat_map, map_app, flat_map_app.
  assert (Lp : length (flat_map int32_to_bytes (map quantized position)) = 12%nat)
    by (rewrite length_flat_map_int32, length_map; lia).
  assert (Ld : length (flat_map int32_to_bytes (map quantized direction)) = 16%nat)
    by (rewrite length_flat_map_int32, length_map; lia).
  unfold pad at 1. rewrite <- app_assoc, (take_app_length' _ _ 12) by done.
  rewrite (drop_app_length' _ _ 12) by done.
  rewrite (pad_id 16) by done.
  rewrite !Uint8ArrayToInt32Array_of_ints.
  - by rewrite !map_map.
  - apply List.Forall_forall. intros q [v [<- _]]%in_map_iff. apply quantized_range.
  - apply List.Forall_forall. intros q [v [<- _]]%in_map_iff. apply quantized_range.
Qed.

Lemma map_fmap {A B} (f : A -> B) (l : list A) : map f l = f <$> l.
Proof. reflexivity. Qed.

Lemma lookup_field i payload k :
  field i payload !! k =
  if decide (k < 4)%nat then payload !! (4 * i + k)%nat else None.
Proof.
  unfold field. case_decide.
  - by rewrite lookup_take_lt, lookup_drop.
  - apply lookup_take_ge. lia.
Qed.

Lemma field_0 b0 b1 b2 b3 rest :
  field 0 (b0 :: b1 :: b2 :: b3 :: rest) = [b0; b1; b2; b3].
Proof. reflexivity. Qed.

Lemma field_S i b0 b1 b2 b3 rest :
  field (S i) (b0 :: b1 :: b2 :: b3 :: rest) = field i rest.
Proof.
  unfold field. replace (4 * S i)%nat with (4 + 4 * i)%nat by lia.
  by rewrite <- drop_drop.
Qed.

Lemma int32_of_bytes_le_value b0 b1 b2 b3 :
  int32_of_bytes b0 b1 b2 b3 = wrap32 (le_value [b0; b1; b2; b3]).
Proof.
  unfold int32_of_bytes, le_value. cbn [foldr]. f_equal. lia.
Qed.

(** The integers of a buffer are its 4-byte fields, read least significant
    byte first as two's complement. *)
Lemma Uint8ArrayToInt32Array_fields k :
  forall input ints, length input = (4 * k)%nat ->
    Uint8ArrayToInt32Array input = Some ints ->
    forall i, (i < k)%nat -> ints !! i = Some (wrap32 (le_value (field i input))).
Proof.
  induction k as [|k IH]; intros input ints Hlen E i Hi; [lia|].
  destruct input as [|b0 [|b1 [|b2 [|b3 rest]]]]; simpl in Hlen; try lia.
  cbn [Uint8ArrayToInt32Array] in E.
  destruct (Uint8ArrayToInt32Array rest) as [ints'|] eqn:E'; [|done].
  injection E as <-.
  destruct i as [|i].
  - by rewrite field_0, int32_of_bytes_le_value.
  - rewrite field_S. cbn [lookup list_lookup].
    apply (IH rest); [lia|done|lia].
Qed.

Lemma field_pad_position data i :
  (i < 3)%nat -> field i (pad 12 data) = field i (pad 28 data).
Proof.
  intros Hi. apply list_eq. intros k.
  rewrite !lookup_field. case_decide; [|done].
  rewrite !lookup_pad. repeat case_decide; try done; lia.
Qed.

Lemma field_pad_direction data i :
  (i < 4)%nat -> field i (pad 16 (drop 12 data)) = field (3 + i) (pad 28 data).
Proof.
  intros Hi. apply list_eq. intros k.
  rewrite !lookup_field. case_decide; [|done].
  rewrite !lookup_pad, lookup_drop.
  repeat case_decide; try lia.
  do 3 f_equal. lia.
Qed.

Lemma decodeMessage_fields data :
  decodeMessage data =
    Some {| position := map (scalarOfField data) [0; 1; 2]%nat;
            direction := map (scalarOfField data) [3; 4; 5; 6]%nat |}.
Proof.
  destruct (decodeMessage_words data) as (pos & dir & Ep & Lp & Ed & Ld & ->).
  pose proof (Uint8ArrayToInt32Array_fields 3 _ _ (length_pad 12 data) Ep) as Fp.
  pose proof (Uint8ArrayToInt32Array_fields 4 _ _ (length_pad 16 (drop 12 data)) Ed) as Fd.
  destruct pos as [|p0 [|p1 [|p2 [|]]]]; try done.
  destruct dir as [|d0 [|d1 [|d2 [|d3 [|]]]]]; try done.
  pose proof (Fp 0%nat ltac:(lia)) as F0. pose proof (Fp 1%nat ltac:(lia)) as F1.
  pose proof (Fp 2%nat ltac:(lia)) as F2.
  pose proof (Fd 0%nat ltac:(lia)) as G0. pose proof (Fd 1%nat ltac:(lia)) as G1.
  pose proof (Fd 2%nat ltac:(lia)) as G2. pose proof (Fd 3%nat ltac:(lia)) as G3.
  rewrite field_pad_position in F0, F1, F2 by lia.
  rewrite field_pad_direction in G0, G1, G2, G3 by lia.
  cbn [lookup list_lookup] in *.
  injection F0 as ->. injection F1 as ->. injection F2 as ->.
  injection G0 as ->. injection G1 as ->. injection G2 as ->. injection G3 as ->.
  reflexivity.
Qed.

Lemma flat_map_int32_inj (a b : list Z) :
  Forall int32_range a -> Forall int32_range b ->
  flat_map int32_to_bytes a = flat_map int32_to_bytes b -> a = b.
Proof.
  intros Ha Hb E.
  apply Uint8ArrayToInt32Array_of_ints in Ha, Hb.
  rewrite E in Ha. congruence.
Qed.

Lemma Forall_quantized (f : number -> Z) (l : list number) :
  (forall v, int32_range (f v)) -> Forall int32_range (map f l).
Proof.
  intros Hf. apply List.Forall_forall. intros q [v [<- _]]%in_map_iff. apply Hf.
Qed.

Lemma field_encodeMessage pos dir i v :
  (pos ++ dir) !! i = Some v ->
  field i (encodeMessage pos dir) = int32_to_bytes (quantized v).
Proof.
  rewrite encodeMessage_flat_map.
  generalize (pos ++ dir). clear pos dir. intros l. revert i.
  induction l as [|w l IH]; intros i Hi; [done|].
  cbn [map flat_map]. unfold int32_to_bytes at 1. cbn [app].
  destruct i as [|i].
  - injection Hi as ->. by rewrite field_0.
  - rewrite field_S. by apply IH.
Qed.

End Codec.

(** ** Quantization round trip *)

Lemma quantized_floor v q :
  toFixedPoint v = IInt q -> int32_range q -> quantized v = q.
Proof.
  unfold quantized. intros -> Hq. by apply wrap32_id.
Qed.

Lemma le_value_quantized pos dir i v :
  (pos ++ dir) !! i = Some v ->
  wrap32 (le_value (field i (encodeMessage pos dir))) = quantized v.
Proof.
  intros Hi. rewrite (field_encodeMessage _ _ _ _ Hi).
  rewrite le_value_int32_to_bytes, wrap32_mod.
  apply wrap32_id, quantized_range.
Qed.

(** C1, as amended.  For a position of three scalars and a direction of four,
    decoding the encoding yields, at the place of every scalar [v] whose
    quantized value [floor(v*100)] is an integer of the signed 32-bit range,
    that integer divided by 100; and re-encoding the decoded message gives
    the same bytes exactly when every quantized integer [q] of the message
    is reproduced by [floor((q/100)*100)] in double arithmetic. *)
Theorem quantization_roundtrip (pos dir : list number)
    (Hp : length pos = 3%nat) (Hd : length dir = 4%nat) :
  exists decoded,
    decodeMessage (encodeMessage pos dir) = Some decoded /\
    (forall i v q,
        (pos ++ dir) !! i = Some v -> toFixedPoint v = IInt q -> int32_range q ->
        (position decoded ++ direction decoded) !! i = Some (fromFixedPoint q)) /\
    (encodeMessage (position decoded) (direction decoded) = encodeMessage pos dir <->
     forall v, In v (pos ++ dir) ->
       quantized (fromFixedPoint (quantized v)) = quantized v).
Proof.
  eexists. split; [by apply decodeMessage_encodeMessage|].
  cbn [position direction]. split.
  - intros i v q Hi Hv Hq.
    rewrite <- map_app, map_fmap, list_lookup_fmap, Hi. cbn.
    by rewrite (quantized_floor v q).
  - rewrite !encodeMessage_flat_map, <- map_app, !map_map.
    rewrite <- map_ext_in_iff. split.
    + apply flat_map_int32_inj; apply Forall_quantized; intros; apply quantized_range.
    + by intros ->.
Qed.

(** The scenario of the design: [1.005, -2.34, 0.0] with the identity
    quaternion; [1.005] is sent as [100] and read back as [1.0]. *)
Lemma quantization_roundtrip_witness :
  exists decoded,
    decodeMessage
      (encodeMessage [decimal 1005 1000; decimal (-234) 100; zero] unitDirection)
      = Some decoded /\
    (position decoded ++ direction decoded) !! 0%nat = Some (Z2num 1) /\
    (position decoded ++ direction decoded) !! 1%nat = Some (decimal (-234) 100) /\
    encodeMessage (position decoded) (direction decoded) =
      encodeMessage [decimal 1005 1000; decimal (-234) 100; zero] unitDirection.
Proof.
  destruct (quantization_roundtrip
              [decimal 1005 1000; decimal (-234) 100; zero] unitDirection
              eq_refl eq_refl) as (decoded & E & Hq & Hfix).
  exists decoded. split; [exact E|]. split; [|split].
  - apply (Hq 0%nat (decimal 1005 1000) 100%Z); [reflexivity|reflexivity|].
    unfold int32_range. lia.
  - apply (Hq 1%nat (decimal (-234) 100) (-234)%Z); [reflexivity|reflexivity|].
    unfold int32_range. lia.
  - apply Hfix. intros v Hv. cbn in Hv.
    repeat (destruct Hv as [<-|Hv]; [reflexivity|]). destruct Hv.
Defined.

(** C1 fails as stated.  The finite scalar [30000000] is quantized to
    [3000000000], which the 32-bit store reduces to [-1294967296]: it is
    decoded as [-12949672.96] and not as [floor(v*100)/100].  And [0.295] is
    sent as [29] and decoded as [0.29], whose re-encoding is [28], since
    [0.29 * 100] is [28.999999999999996] in double arithmetic. *)
Lemma quantization_roundtrip_fails :
  (isFinite (Z2num 30000000) = true /\
   toFixedPoint (Z2num 30000000) = IInt 3000000000 /\
   exists decoded,
     decodeMessage (encodeMessage (onAxis (Z2num 30000000)) unitDirection) = Some decoded /\
     position decoded !! 0%nat = Some (fromFixedPoint (-1294967296)) /\
     position decoded !! 0%nat <>
       Some (num_div (num_of_intnum (toFixedPoint (Z2num 30000000)))
                     (Math_pow10 PRECISION))) /\
  (isFinite (decimal 295 1000) = true /\
   toFixedPoint (decimal 295 1000) = IInt 29 /\
   toFixedPoint (fromFixedPoint 29) = IInt 28 /\
   exists decoded,
     decodeMessage (encodeMessage (onAxis (decimal 295 1000)) unitDirection) = Some decoded /\
     encodeMessage (position decoded) (direction decoded) <>
       encodeMessage (onAxis (decimal 295 1000)) unitDirection).
Proof.
  split.
  - split; [reflexivity|]. split; [reflexivity|].
    eexists. split; [by apply decodeMessage_encodeMessage|].
    split; [reflexivity|]. vm_compute. discriminate.
  - split; [reflexivity|]. split; [reflexivity|]. split; [reflexivity|].
    eexists. split; [by apply decodeMessage_encodeMessage|].
    vm_compute. discriminate.
Qed.

(** ** Message layout *)

(** C2, as amended.  For a position of three scalars and a direction of four,
    [encodeMessage] produces exactly 28 bytes, seven 4-byte fields in the
    order of the scalars; each field holds, least significant byte first and
    in two's complement, the quantized value reduced to the signed 32-bit
    range, which is [floor(value*100)] itself whenever that integer lies in
    the range.  [decodeMessage] reads the position from the first three
    fields of a 28-byte payload and the direction from the next four. *)
Theorem message_layout (pos dir : list number)
    (Hp : length pos = 3%nat) (Hd : length dir = 4%nat) :
  length (encodeMessage pos dir) = 28%nat /\
  (forall i v, (pos ++ dir) !! i = Some v ->
     length (field i (encodeMessage pos dir)) = 4%nat /\
     wrap32 (le_value (field i (encodeMessage pos dir))) = quantized v /\
     forall q, toFixedPoint v = IInt q -> int32_range q ->
       wrap32 (le_value (field i (encodeMessage pos dir))) = q) /\
  (forall data, length data = 28%nat ->
     decodeMessage data =
       Some {| position :=
                 map (fun i => fromFixedPoint (wrap32 (le_value (field i data))))
                     [0; 1; 2]%nat;
               direction :=
                 map (fun i => fromFixedPoint (wrap32 (le_value (field i data))))
                     [3; 4; 5; 6]%nat |}).
Proof.
  split; [rewrite length_encodeMessage; lia|]. split.
  - intros i v Hi. split; [|split].
    + by rewrite (field_encodeMessage _ _ _ _ Hi).
    + by apply le_value_quantized.
    + intros q Hv Hq. rewrite (le_value_quantized _ _ _ _ Hi).
      by apply quantized_floor.
  - intros data Hlen. rewrite decodeMessage_fields.
    unfold scalarOfField. by rewrite (pad_id 28 data Hlen).
Qed.

Lemma message_layout_witness :
  length (encodeMessage [decimal 1005 1000; decimal (-234) 100; zero] unitDirection)
    = 28%nat /\
  wrap32 (le_value (field 1 (encodeMessage [decimal 1005 1000; decimal (-234) 100; zero]
                                           unitDirection))) = (-234)%Z.
Proof.
  destruct (message_layout [decimal 1005 1000; decimal (-234) 100; zero] unitDirection
              eq_refl eq_refl) as (Hlen & Hfield & _).
  split; [exact Hlen|].
  destruct (Hfield 1%nat (decimal (-234) 100) eq_refl) as (_ & _ & Hq).
  apply Hq; [reflexivity|]. unfold int32_range. lia.
Defined.

(** C2 fails as stated.  For the finite scalar [50000000] the first field
    does not hold [floor(v*100) = 5000000000] but its reduction modulo
    [2^32], [705032704]. *)
Lemma message_layout_overflow :
  isFinite (Z2num 50000000) = true /\
  toFixedPoint (Z2num 50000000) = IInt 5000000000 /\
  wrap32 (le_value (field 0 (encodeMessage (onAxis (Z2num 50000000)) unitDirection)))
    = 705032704%Z /\
  wrap32 (le_value (field 0 (encodeMessage (onAxis (Z2num 50000000)) unitDirection)))
    <> 5000000000%Z.
Proof.
  split; [reflexivity|]. split; [reflexivity|].
  assert (E : wrap32 (le_value (field 0 (encodeMessage (onAxis (Z2num 50000000))
                                                       unitDirection)))
              = 705032704%Z) by (vm_compute; reflexivity).
  split; [exact E|]. rewrite E. discriminate.
Qed.

(** ** The inbound-message handler *)

Lemma CoordMap_has_coords {T} (m : CoordMap T) (coord : ChunkCoord) :
  CoordMap_has m coord = true <-> coord ∈ CoordMap_coords m.
Proof.
  unfold CoordMap_has, CoordMap_get, CoordMap_coords.
  induction m as [|[k w] m IH]; cbn [List.find map fst].
  - split; [done|]. by intros ?%elem_of_nil.
  - rewrite elem_of_cons. case_bool_decide as Hk; cbn [fmap option_fmap option_map snd].
    + split; [by left|done].
    + rewrite IH. split; [by right|]. by intros [?|?].
Qed.

Lemma onRelayEvent_invisible connectedAddress now address data s decoded :
  decodeMessage data = Some decoded ->
  CoordMap_has (visibleChunks s)
    (pixelToChunkCoord {| coord_x := element (position decoded) 0;
                          coord_y := element (position decoded) 2 |}
                       RELAY_CHUNK_SIZE) = false ->
  onRelayEvent connectedAddress now address data s = Some s.
Proof.
  intros Hdec Hvis. unfold onRelayEvent. rewrite Hdec.
  case_decide; [done|]. by rewrite Hvis.
Qed.

(** C4, as amended.  The handler does not look at the length of a payload:
    every payload is decoded without error as the 28-byte buffer made of its
    first 28 bytes, missing bytes read as zero, and the message is processed
    exactly as that 28-byte message is. *)
Theorem payload_length_unchecked (connectedAddress : option string) (now : Z)
    (address : string) (data : list Byte.byte) (s : State) :
  length (pad 28 data) = 28%nat /\
  decodeMessage data = decodeMessage (pad 28 data) /\
  is_Some (onRelayEvent connectedAddress now address data s) /\
  onRelayEvent connectedAddress now address data s =
    onRelayEvent connectedAddress now address (pad 28 data) s.
Proof.
  split; [apply length_pad|]. split; [by rewrite decodeMessage_pad|]. split.
  - unfold onRelayEvent.
    destruct (decodeMessage_total data) as [decoded ->].
    case_decide; [by eexists|].
    destruct (_ || _); [by eexists|].
    destruct (registerEntity _ _). by eexists.
  - unfold onRelayEvent. by rewrite decodeMessage_pad.
Qed.

(** C4 fails as stated: a payload of 29 bytes, from a sender that is not the
    local address, whose first 28 bytes place the sender in a visible chunk,
    creates a player. *)
Lemma wrong_length_message_accepted :
  length (originMessage ++ ["*"%byte]) = 29%nat /\
  entities stateAtOrigin = [] /\
  exists s',
    onRelayEvent None 5 "0xB0B" (originMessage ++ ["*"%byte]) stateAtOrigin = Some s' /\
    entities s' = ["0xB0B"] /\
    PlayerPosition (components s') !! 0%nat
      = Some {| pos_x := zero; pos_y := zero; pos_z := zero |} /\
    PlayerLastMessage (components s') !! 0%nat = Some 5%Z.
Proof.
  split; [reflexivity|]. split; [reflexivity|].
  eexists. split; [vm_compute; reflexivity|].
  split; [reflexivity|]. split; reflexivity.
Qed.

(** C5.  A message that is decoded, from a sender other than the local
    address, whose position lies in a chunk that is not in the visible set
    leaves the state as it is: no player is created or updated. *)
Theorem visibility_gate (connectedAddress : option string) (now : Z)
    (address : string) (data : list Byte.byte) (s : State) (decoded : DecodedMessage)
    (Hdecoded : decodeMessage data = Some decoded)
    (Hsender : Some address <> connectedAddress)
    (Hchunk : pixelToChunkCoord {| coord_x := element (position decoded) 0;
                                   coord_y := element (position decoded) 2 |}
                                RELAY_CHUNK_SIZE
              ∉ CoordMap_coords (visibleChunks s)) :
  onRelayEvent connectedAddress now address data s = Some s.
Proof.
  apply (onRelayEvent_invisible _ _ _ _ _ decoded Hdecoded).
  destruct (CoordMap_has _ _) eqn:E; [|done].
  by apply CoordMap_has_coords in E.
Qed.

Lemma visibility_gate_witness :
  onRelayEvent (Some "0xA11CE") 5 "0xB0B"
    (encodeMessage (onAxis (Z2num 1000)) unitDirection) stateAtOrigin
  = Some stateAtOrigin.
Proof.
  apply (visibility_gate (Some "0xA11CE") 5 "0xB0B"
           (encodeMessage (onAxis (Z2num 1000)) unitDirection) stateAtOrigin
           {| position := map (fun v => fromFixedPoint (quantized v)) (onAxis (Z2num 1000));
              direction := map (fun v => fromFixedPoint (quantized v)) unitDirection |}).
  - reflexivity.
  - discriminate.
  - apply (bool_decide_unpack _). vm_compute. exact I.
Defined.

(** C6.  A message whose sender is the local address leaves the state as it
    is, whatever its payload. *)
Theorem self_message_suppressed (now : Z) (address : string)
    (data : list Byte.byte) (s : State) :
  onRelayEvent (Some address) now address data s = Some s.
Proof.
  unfold onRelayEvent.
  destruct (decodeMessage_total data) as [decoded ->].
  by rewrite decide_True.
Qed.

(** ** The visible chunks of a moving observer *)

Section Chunks.

Lemma CoordMap_coords_set {T} (m : CoordMap T) (coord : ChunkCoord) (value : T) c :
  c ∈ CoordMap_coords (CoordMap_set m coord value) <->
  c = coord \/ c ∈ CoordMap_coords m.
Proof.
  unfold CoordMap_coords.
  induction m as [|[k w] m IH]; cbn [CoordMap_set map fst].
  - rewrite list_elem_of_singleton, elem_of_nil. tauto.
  - case_decide as Hk; cbn [map fst]; rewrite !elem_of_cons.
    + subst k. tauto.
    + rewrite IH. tauto.
Qed.

Lemma coords_foldl_set {A} (g : A -> ChunkCoord) (l : list A) :
  forall (m : CoordMap bool) c,
    c ∈ CoordMap_coords (foldl (fun m a => CoordMap_set m (g a) true) m l) <->
    c ∈ CoordMap_coords m \/ exists a, a ∈ l /\ c = g a.
Proof.
  induction l as [|a l IH]; intros m c; cbn [foldl].
  - split; [by left|]. intros [?|(a & Ha & _)]; [done|]. by apply elem_of_nil in Ha.
  - rewrite IH, CoordMap_coords_set. split.
    + intros [[->|?]|(b & Hb & ->)]; [right|by left|right].
      * exists a. split; [apply elem_of_cons; by left|done].
      * exists b. split; [apply elem_of_cons; by right|done].
    + intros [?|(b & [->|Hb]%elem_of_cons & ->)];
        [left; by right|left; by left|right; by exists b].
Qed.

Lemma coords_foldl_rows (ys : list Z) (xs : list Z) :
  forall (m : CoordMap bool) c,
    c ∈ CoordMap_coords
          (foldl (fun m x => foldl (fun m y => CoordMap_set m (chunkAt x y) true) m ys)
                 m xs) <->
    c ∈ CoordMap_coords m \/ exists x y, x ∈ xs /\ y ∈ ys /\ c = chunkAt x y.
Proof.
  induction xs as [|x xs IH]; intros m c; cbn [foldl].
  - split; [by left|]. intros [?|(x & y & Hx & _)]; [done|]. by apply elem_of_nil in Hx.
  - rewrite IH, (coords_foldl_set (chunkAt x)). split.
    + intros [[?|(y & Hy & ->)]|(x' & y & Hx & Hy & ->)]; [by left|right|right].
      * exists x, y. split; [apply elem_of_cons; by left|done].
      * exists x', y. split; [apply elem_of_cons; by right|done].
    + intros [?|(x' & y & [->|Hx]%elem_of_cons & Hy & ->)].
      * left. by left.
      * left. right. by exists y.
      * right. by exists x', y.
Qed.

Lemma elem_of_fromTo a b k : k ∈ fromTo a b <-> (a <= k <= b)%Z.
Proof. unfold fromTo. rewrite elem_of_seqZ. lia. Qed.

(** The chunks of an area are exactly those between the chunks of its two
    corners. *)
Lemma getChunksInArea_coords area chunkSize chunksInArea :
  getChunksInArea area chunkSize = Some chunksInArea ->
  exists x0 x1 y0 y1,
    pixelToChunkCoord {| coord_x := area_x area; coord_y := area_y area |} chunkSize
      = chunkAt x0 y0 /\
    pixelToChunkCoord {| coord_x := num_add (area_x area) (area_width area);
                         coord_y := num_add (area_y area) (area_height area) |} chunkSize
      = chunkAt x1 y1 /\
    forall c, c ∈ CoordMap_coords chunksInArea <->
              exists x y, c = chunkAt x y /\ (x0 <= x <= x1)%Z /\ (y0 <= y <= y1)%Z.
Proof.
  unfold getChunksInArea.
  destruct (pixelToChunkCoord {| coord_x := area_x area; coord_y := area_y area |} chunkSize)
    as [[x0| |] [y0| |]]; cbn [chunk_x chunk_y];
    destruct (pixelToChunkCoord _ chunkSize) as [[x1| |] [y1| |]];
    cbn [chunk_x chunk_y]; try done.
  intros [= <-]. exists x0, x1, y0, y1. split; [done|]. split; [done|].
  intros c. rewrite (coords_foldl_rows (fromTo y0 y1) (fromTo x0 x1) [] c). split.
  - intros [H|(x & y & Hx%elem_of_fromTo & Hy%elem_of_fromTo & ->)];
      [by apply elem_of_nil in H|]. by exists x, y.
  - intros (x & y & -> & Hx & Hy). right. exists x, y.
    by rewrite !elem_of_fromTo.
Qed.

Lemma coords_subtract_foldl (subtrahend : CoordMap bool) (l : list ChunkCoord) :
  forall (result : CoordMap bool) c,
    c ∈ CoordMap_coords
          (foldl (fun result coord =>
                    if truthy (CoordMap_get subtrahend coord) then result
                    else CoordMap_set result coord true) result l) <->
    c ∈ CoordMap_coords result \/
    (c ∈ l /\ truthy (CoordMap_get subtrahend c) = false).
Proof.
  induction l as [|a l IH]; intros result c; cbn [foldl].
  - split; [by left|]. intros [?|[H _]]; [done|]. by apply elem_of_nil in H.
  - rewrite IH, elem_of_cons.
    destruct (truthy (CoordMap_get subtrahend a)) eqn:Ea.
    + split; [tauto|]. intros [?|[[->|?] Hc]]; [tauto|congruence|tauto].
    + rewrite CoordMap_coords_set. split; [|tauto].
      intros [[->|?]|?]; tauto.
Qed.

(** The diff of two visible sets: the coordinates of the first that the
    second does not hold. *)
Lemma subtract_coords (from subtrahend : CoordMap bool) c :
  c ∈ CoordMap_coords (subtract from subtrahend) <->
  c ∈ CoordMap_coords from /\ truthy (CoordMap_get subtrahend c) = false.
Proof.
  unfold subtract. rewrite coords_subtract_foldl. split; [|tauto].
  intros [H|?]; [|done]. by apply elem_of_nil in H.
Qed.

End Chunks.

(** C8, as amended.  With chunk size and half-length 64, an observer at
    [(0,0,0)] yields the area [[-64,-64,128,128]], whose chunks are exactly
    [(-1,-1)] through [(1,1)]; after the observer moves to [(200,0,0)] the
    area is [[136,-64,128,128]], the chunks of the columns [-1], [0] and [1]
    are removed and the chunks of the columns [2], [3] and [4] are added
    (each column with the rows [-1], [0] and [1]). *)
Theorem observer_scenario :
  currentArea (observerAt 0) =
    {| area_x := Z2num (-64); area_y := Z2num (-64);
       area_width := Z2num 128; area_height := Z2num 128 |} /\
  CoordMap_coords <$> getChunksInArea (currentArea (observerAt 0)) RELAY_CHUNK_SIZE
    = Some (chunkGrid (-1) 1 (-1) 1) /\
  CoordMap_coords (visibleChunks stateAtOrigin) = chunkGrid (-1) 1 (-1) 1 /\
  currentArea (observerAt 200) =
    {| area_x := Z2num 136; area_y := Z2num (-64);
       area_width := Z2num 128; area_height := Z2num 128 |} /\
  exists chunksInArea,
    createChunks RELAY_CHUNK_SIZE (Z2num 0) (currentArea (observerAt 200))
                 (visibleChunks stateAtOrigin)
    = Some (chunksInArea,
            {| addedChunks := chunkGrid 2 4 (-1) 1;
               removedChunks := chunkGrid (-1) 1 (-1) 1 |}) /\
    CoordMap_coords chunksInArea = chunkGrid 2 4 (-1) 1.
Proof.
  split; [reflexivity|]. split; [reflexivity|]. split; [reflexivity|].
  split; [reflexivity|].
  eexists. split; [vm_compute; reflexivity|]. reflexivity.
Qed.

(** C8 fails as stated: the chunk [(-2,-2)] is not among the chunks of the
    initial area, no chunk of column [-2] is removed by the move, and the move
    also removes [(0,0)] and [(1,0)] and adds [(4,0)]. *)
Lemma observer_scenario_fails :
  exists chunksAtOrigin chunksInArea events,
    getChunksInArea (currentArea (observerAt 0)) RELAY_CHUNK_SIZE = Some chunksAtOrigin /\
    (chunkAt (-2) (-2) ∉ CoordMap_coords chunksAtOrigin) /\
    CoordMap_coords chunksAtOrigin <> chunkGrid (-2) 1 (-2) 1 /\
    createChunks RELAY_CHUNK_SIZE (Z2num 0) (currentArea (observerAt 200)) chunksAtOrigin
      = Some (chunksInArea, events) /\
    (chunkAt (-2) 0 ∉ removedChunks events) /\
    (chunkAt 0 0 ∈ removedChunks events) /\
    (chunkAt 1 0 ∈ removedChunks events) /\
    (chunkAt 4 0 ∈ addedChunks events) /\
    addedChunks events <> chunkGrid 2 3 (-1) 1.
Proof.
  eexists _, _, _. split; [vm_compute; reflexivity|].
  split; [apply (bool_decide_unpack _); vm_compute; exact I|].
  split; [vm_compute; discriminate|].
  split; [vm_compute; reflexivity|].
  split; [apply (bool_decide_unpack _); vm_compute; exact I|].
  split; [apply (bool_decide_unpack _); vm_compute; exact I|].
  split; [apply (bool_decide_unpack _); vm_compute; exact I|].
  split; [apply (bool_decide_unpack _); vm_compute; exact I|].
  vm_compute. discriminate.
Qed.

(** ** Non-finite pose samples *)

Lemma quantized_non_finite v : isFinite v = false -> quantized v = 0%Z.
Proof.
  destruct v as [|[]| |]; try discriminate; reflexivity.
Qed.

(** C9, as amended.  A pose sample is published whatever its scalars are:
    one message of 28 bytes is pushed on the topic of the current chunk, and
    a non-finite scalar (NaN or an infinity) is not rejected but sent as the
    integer 0, four zero bytes. *)
Theorem non_finite_scalars_sent_as_zero (chunk : ChunkCoord) (pos dir : list number)
    (r : Relay) (Hp : length pos = 3%nat) (Hd : length dir = 4%nat) :
  pushed (relayPositionAndDirection chunk pos dir r)
    = pushed r ++ [(createChunkTopicMessage chunk, encodeMessage pos dir)] /\
  length (encodeMessage pos dir) = 28%nat /\
  forall i v, (pos ++ dir) !! i = Some v -> isFinite v = false ->
    field i (encodeMessage pos dir) = [Byte.x00; Byte.x00; Byte.x00; Byte.x00].
Proof.
  split; [reflexivity|]. split; [rewrite length_encodeMessage; lia|].
  intros i v Hi Hv.
  rewrite (field_encodeMessage _ _ _ _ Hi), (quantized_non_finite v Hv).
  reflexivity.
Qed.

Lemma non_finite_scalars_sent_as_zero_witness :
  field 1 (encodeMessage [zero; Infinity; zero] unitDirection)
    = [Byte.x00; Byte.x00; Byte.x00; Byte.x00].
Proof.
  destruct (non_finite_scalars_sent_as_zero (chunkAt 0 0) [zero; Infinity; zero]
              unitDirection (relay initialState) eq_refl eq_refl) as (_ & _ & H).
  apply (H 1%nat Infinity); reflexivity.
Defined.

(** C9 fails as stated: the sample whose position is [NaN, 0, 0] is not
    rejected; it is published, on the topic [c(NaN,0)], as the message of the
    position [0, 0, 0]. *)
Lemma non_finite_sample_published :
  isFinite NaN = false /\
  pushed (relayPositionAndDirection
            (currentChunk {| voxel_x := NaN; voxel_y := zero; voxel_z := zero |})
            (onAxis NaN) unitDirection (relay initialState))
    = [("c(NaN,0)", originMessage)] /\
  length originMessage = 28%nat.
Proof.
  split; [reflexivity|]. split; [vm_compute; reflexivity|]. reflexivity.
Qed.

(** ** Eviction when a chunk leaves the visible set *)

(** C3, the behaviour of the code at the failing input.  A player accepted at
    the origin, in chunk [(0,0)], keeps its position, direction and
    timestamp when the removed-chunk subscriber runs for [(0,0)], and when
    the observer moves to [(200,0,0)] and [(0,0)] leaves the visible set. *)
Lemma chunk_exit_keeps_player :
  exists s1 s2,
    onRelayEvent None 5 "0xB0B" originMessage stateAtOrigin = Some s1 /\
    PlayerPosition (components s1) !! 0%nat
      = Some {| pos_x := zero; pos_y := zero; pos_z := zero |} /\
    components (removedChunksSubcription (chunkAt 0 0) s1) = components s1 /\
    onPlayerPosition (observerAt 200) s1 = Some s2 /\
    CoordMap_has (visibleChunks s2) (chunkAt 0 0) = false /\
    components s2 = components s1.
Proof.
  eexists _, _. split; [vm_compute; reflexivity|].
  split; [reflexivity|]. split; [vm_compute; reflexivity|].
  split; [vm_compute; reflexivity|]. split; reflexivity.
Qed.

(** ** The cleanup of unresponsive players *)

Section Cleanup.

Local Open Scope Z_scope.

Lemma playerState_removed entity c :
  playerState (removePlayerComponent entity c) entity = noPlayerState.
Proof.
  unfold playerState, removePlayerComponent, noPlayerState. cbn.
  by rewrite !lookup_delete_eq.
Qed.

Lemma playerState_removed_other entity other c :
  entity <> other ->
  playerState (removePlayerComponent entity c) other = playerState c other.
Proof.
  intros Hne. unfold playerState, removePlayerComponent. cbn.
  by rewrite !lookup_delete_ne.
Qed.

Lemma playerState_lastMessage c c' entity :
  playerState c entity = playerState c' entity ->
  PlayerLastMessage c !! entity = PlayerLastMessage c' !! entity.
Proof. unfold playerState. congruence. Qed.

(** The cleanup loop over any duplicate-free list of entities that have a
    timestamp: it does not raise, and removes exactly the listed entities
    whose timestamp is below the limit. *)
Lemma cleanup_loop (timeOut : Z) (c0 : Components) (players : list nat) :
  NoDup players ->
  (forall player, player ∈ players -> is_Some (PlayerLastMessage c0 !! player)) ->
  exists c,
    foldl (cleanupPlayer timeOut) (Some c0) players = Some c /\
    forall entity,
      playerState c entity =
      match PlayerLastMessage c0 !! entity with
      | Some lastMessage =>
          if decide (entity ∈ players /\ lastMessage < timeOut) then noPlayerState
          else playerState c0 entity
      | None => playerState c0 entity
      end.
Proof.
  induction players as [|player players IH] using rev_ind; intros Hnd Hhas.
  - exists c0. split; [done|]. intros entity.
    destruct (PlayerLastMessage c0 !! entity); [|done].
    case_decide as H; [|done]. destruct H as [H _]. by apply elem_of_nil in H.
  - apply NoDup_app in Hnd as (Hnd & Hfresh & _).
    destruct IH as (c & Hfold & Hc); [done| |].
    { intros p Hp. apply Hhas, elem_of_app. by left. }
    assert (Hnew : player ∉ players).
    { intros Hin. apply (Hfresh _ Hin). by apply list_elem_of_singleton. }
    destruct (Hhas player) as [lastMessage Hlast];
      [apply elem_of_app; right; by apply list_elem_of_singleton|].
    assert (Hcur : PlayerLastMessage c !! player = Some lastMessage).
    { rewrite <- Hlast. apply playerState_lastMessage.
      rewrite (Hc player), Hlast. case_decide as H; [|done]. by destruct H. }
    rewrite foldl_snoc, Hfold. unfold cleanupPlayer, getComponentValueStrict.
    rewrite Hcur.
    destruct (Z.ltb_spec lastMessage timeOut) as [Hlt|Hge]; eexists; (split; [done|]).
    + intros entity. destruct (decide (player = entity)) as [<-|Hne].
      * rewrite playerState_removed, Hlast. rewrite decide_True; [done|].
        split; [|done]. apply elem_of_app. right. by apply list_elem_of_singleton.
      * rewrite playerState_removed_other by done. rewrite (Hc entity).
        destruct (PlayerLastMessage c0 !! entity) as [l|]; [|done].
        repeat case_decide; try done; exfalso.
        -- match goal with H : ¬ _ |- _ => apply H end.
           destruct H as [H ?]. split; [|done]. apply elem_of_app. by left.
        -- match goal with H : ¬ _ |- _ => apply H end.
           destruct H0 as [H0 ?]. split; [|done].
           apply elem_of_app in H0 as [?|H0]; [done|].
           apply list_elem_of_singleton in H0. congruence.
    + intros entity. rewrite (Hc entity).
      destruct (PlayerLastMessage c0 !! entity) as [l|] eqn:El; [|done].
      repeat case_decide; try done; exfalso.
      * match goal with H : ¬ _ |- _ => apply H end.
        destruct H as [H ?]. split; [|done]. apply elem_of_app. by left.
      * match goal with H : ¬ _ |- _ => apply H end.
        destruct H0 as [H0 ?]. split; [|done].
        apply elem_of_app in H0 as [?|H0]; [done|].
        apply list_elem_of_singleton in H0. subst entity.
        rewrite Hlast in El. injection El as <-. lia.
Qed.

Lemma runQuery_Has {V} (component : gmap nat V) (entity : nat) :
  entity ∈ runQuery [Has component] <-> is_Some (component !! entity).
Proof.
  unfold runQuery, fragmentEntities.
  rewrite elem_of_filter, elem_of_dom. cbn [forallb]. tauto.
Qed.

Lemma cleanupComponents_spec (now : Z) (c0 : Components) :
  exists c,
    cleanupComponents now c0 = Some c /\
    forall entity,
      playerState c entity =
      match PlayerLastMessage c0 !! entity with
      | Some lastMessage =>
          if decide (now - lastMessage > TIMEOUT) then noPlayerState
          else playerState c0 entity
      | None => playerState c0 entity
      end.
Proof.
  unfold cleanupComponents.
  destruct (cleanup_loop (now - TIMEOUT) c0
              (elements (runQuery [Has (PlayerLastMessage c0)])))
    as (c & Hfold & Hc).
  - apply NoDup_elements.
  - intros player Hin. by apply elem_of_elements, runQuery_Has in Hin.
  - exists c. split; [done|]. intros entity. rewrite (Hc entity).
    destruct (PlayerLastMessage c0 !! entity) as [l|] eqn:El; [|done].
    repeat case_decide; try done; exfalso.
    + destruct H as [_ Hlt]. lia.
    + apply H. split; [|lia]. apply elem_of_elements, runQuery_Has. by rewrite El.
Qed.

End Cleanup.

(** C7.  The cleanup timer ticks every 2000 ms and the timeout is 1000 ms.
    A tick at time [now] does not raise, and removes exactly the players
    whose last message is older than the timeout: every entity with a
    timestamp such that [now - lastMessage > TIMEOUT] loses its four
    components together; every other entity keeps all its components as
    they were. *)
Theorem staleness_eviction (now : Z) (s : State) :
  TIMEOUT = 1000%Z /\
  cleanupTickTime 0 = 2000%Z /\
  (forall k, cleanupTickTime (S k) - cleanupTickTime k = 2000)%Z /\
  exists s',
    onCleanupTick now s = Some s' /\
    entities s' = entities s /\
    visibleChunks s' = visibleChunks s /\
    relay s' = relay s /\
    forall player,
      match PlayerLastMessage (components s) !! player with
      | Some lastMessage =>
          if decide (now - lastMessage > TIMEOUT)%Z
          then playerState (components s') player = noPlayerState
          else playerState (components s') player = playerState (components s) player
      | None => playerState (components s') player = playerState (components s) player
      end.
Proof.
  split; [reflexivity|]. split; [reflexivity|]. split.
  { intros k. unfold cleanupTickTime, UNRESPONSIVE_PLAYER_CLEANUP. lia. }
  destruct (cleanupComponents_spec now (components s)) as (c & Hc & Hstate).
  unfold onCleanupTick. rewrite Hc. eexists. split; [done|].
  cbn [entities visibleChunks relay components]. repeat split.
  intros player. specialize (Hstate player).
  destruct (PlayerLastMessage (components s) !! player); [|done].
  by case_decide.
Qed.

(** ** The chunk component of remote players *)

Section RelayerChunk.

Lemma runQuery_HasValue_empty {A B V} `{EqDecision V}
    (first : gmap nat A) (second : gmap nat B) (value : V) :
  runQuery [Has first; Has second; HasValue (∅ : gmap nat V) value] = ∅.
Proof.
  apply elem_of_equiv_empty_L. intros entity.
  unfold runQuery. rewrite elem_of_filter. intros [Hpass _].
  cbn [forallb passesQueryFragment] in Hpass.
  rewrite lookup_empty in Hpass.
  by rewrite andb_false_r in Hpass.
Qed.

Lemma removedChunksSubcription_components chunk s :
  PlayerRelayerChunkPosition (components s) = ∅ ->
  runQuery [Has (PlayerDirection (components s)); Has (PlayerPosition (components s));
            HasValue (PlayerRelayerChunkPosition (components s)) chunk] = ∅ /\
  components (removedChunksSubcription chunk s) = components s.
Proof.
  intros Hempty. unfold removedChunksSubcription. cbn [components].
  rewrite Hempty, runQuery_HasValue_empty. by rewrite elements_empty.
Qed.

Lemma removePlayers_state (players : list nat) :
  forall (c : Components) (entity : nat),
    playerState (foldl (fun c r => removePlayerComponent r c) c players) entity =
    if decide (entity ∈ players) then noPlayerState else playerState c entity.
Proof.
  induction players as [|player players IH]; intros c entity; cbn [foldl].
  - rewrite decide_False; [done|]. by intros ?%elem_of_nil.
  - rewrite IH. destruct (decide (entity = player)) as [->|Hne].
    + rewrite playerState_removed.
      rewrite (decide_True (P := player ∈ player :: players));
        [by case_decide|apply elem_of_cons; by left].
    + rewrite playerState_removed_other by done.
      repeat case_decide; try done; exfalso.
      * match goal with H : ¬ _ |- _ => apply H end. apply elem_of_cons. by right.
      * match goal with H : _ ∈ _ :: _ |- _ => apply elem_of_cons in H as [?|?] end; done.
Qed.

(** X14.  What the removed-chunk subscriber does on any store: the entities that
    have a direction, a position and the removed chunk as their chunk
    component lose their four components together; every other entity keeps
    all of its components. *)
Lemma removedChunksSubcription_state chunk s entity :
  playerState (components (removedChunksSubcription chunk s)) entity =
  if decide (is_Some (PlayerDirection (components s) !! entity) /\
             is_Some (PlayerPosition (components s) !! entity) /\
             PlayerRelayerChunkPosition (components s) !! entity = Some chunk)
  then noPlayerState
  else playerState (components s) entity.
Proof.
  unfold removedChunksSubcription. cbn [components].
  rewrite removePlayers_state.
  assert (Hq : entity ∈ elements
                 (runQuery [Has (PlayerDirection (components s));
                            Has (PlayerPosition (components s));
                            HasValue (PlayerRelayerChunkPosition (components s)) chunk])
               <-> is_Some (PlayerDirection (components s) !! entity) /\
                   is_Some (PlayerPosition (components s) !! entity) /\
                   PlayerRelayerChunkPosition (components s) !! entity = Some chunk).
  { rewrite elem_of_elements. unfold runQuery, fragmentEntities.
    rewrite elem_of_filter, elem_of_dom.
    cbn [forallb passesQueryFragment].
    destruct (PlayerPosition (components s) !! entity) as [p|];
      destruct (PlayerRelayerChunkPosition (components s) !! entity) as [v|];
      cbn [andb].
    - rewrite andb_true_r, bool_decide_eq_true. split.
      + intros [-> Hdir]. eauto.
      + intros (Hdir & _ & [= ->]). done.
    - split; [by intros [? _]|by intros (_ & _ & ?)].
    - split; [by intros [? _]|]. intros (_ & [? ?] & _). done.
    - split; [by intros [? _]|]. intros (_ & [? ?] & _). done. }
  repeat case_decide; try done; tauto.
Qed.

Lemma addedChunks_components chunks s :
  components (foldl (fun s chunk => addedChunkSubscription chunk s) s chunks)
  = components s.
Proof.
  revert s. induction chunks as [|chunk chunks IH]; intros s; [done|].
  cbn [foldl]. by rewrite IH.
Qed.

Lemma removedChunks_components chunks s :
  PlayerRelayerChunkPosition (components s) = ∅ ->
  components (foldl (fun s chunk => removedChunksSubcription chunk s) s chunks)
  = components s.
Proof.
  revert s. induction chunks as [|chunk chunks IH]; intros s Hempty; [done|].
  cbn [foldl].
  destruct (removedChunksSubcription_components chunk s Hempty) as [_ Hc].
  rewrite IH; [done|]. by rewrite Hc.
Qed.

Lemma onPlayerPosition_components c s s' :
  PlayerRelayerChunkPosition (components s) = ∅ ->
  onPlayerPosition c s = Some s' -> components s' = components s.
Proof.
  intros Hempty. unfold onPlayerPosition.
  destruct (createChunks _ _ _ _) as [[chunksInArea events]|]; [|done].
  intros [= <-].
  rewrite removedChunks_components; rewrite addedChunks_components; done.
Qed.

(** What the handler does to the store: nothing, or the three components of
    the sender's entity are set and the chunk component is left alone. *)
Lemma onRelayEvent_components connectedAddress now address data s s' :
  onRelayEvent connectedAddress now address data s = Some s' ->
  s' = s \/
  exists entity decoded,
    decodeMessage data = Some decoded /\
    PlayerPosition (components s') =
      <[entity := {| pos_x := element (position decoded) 0;
                     pos_y := element (position decoded) 1;
                     pos_z := element (position decoded) 2 |}]>
        (PlayerPosition (components s)) /\
    PlayerDirection (components s') =
      <[entity := {| qx := element (direction decoded) 0;
                     qy := element (direction decoded) 1;
                     qz := element (direction decoded) 2;
                     qw := element (direction decoded) 3 |}]>
        (PlayerDirection (components s)) /\
    PlayerLastMessage (components s') = <[entity := now]> (PlayerLastMessage (components s)) /\
    PlayerRelayerChunkPosition (components s') = PlayerRelayerChunkPosition (components s).
Proof.
  unfold onRelayEvent.
  destruct (decodeMessage data) as [decoded|]; [|done].
  case_decide; [intros [= <-]; by left|].
  destruct (_ || _); [intros [= <-]; by left|].
  destruct (registerEntity _ _) as [entities' entity].
  intros [= <-]. right. exists entity, decoded. by cbn.
Qed.

Lemma step_relayer_chunk connectedAddress ev s s' :
  PlayerRelayerChunkPosition (components s) = ∅ ->
  step connectedAddress ev s = Some s' ->
  PlayerRelayerChunkPosition (components s') = ∅.
Proof.
  intros Hempty. destruct ev as [c|chunk|chunk|chunk pos dir|now address data|now];
    cbn [step].
  - intros Hs. by rewrite (onPlayerPosition_components _ _ _ Hempty Hs).
  - by intros [= <-].
  - intros [= <-].
    by destruct (removedChunksSubcription_components chunk s Hempty) as [_ ->].
  - by intros [= <-].
  - intros [->|(entity & decoded & _ & _ & _ & _ & ->)]%onRelayEvent_components; done.
  - unfold onCleanupTick.
    destruct (cleanupComponents_spec now (components s)) as (c & -> & Hstate).
    intros [= <-]. cbn [components].
    apply map_eq. intros entity. rewrite lookup_empty.
    specialize (Hstate entity). unfold playerState, noPlayerState in Hstate.
    rewrite Hempty, lookup_empty in Hstate.
    destruct (PlayerLastMessage (components s) !! entity);
      [case_decide|]; congruence.
Qed.

Lemma reachable_relayer_chunk connectedAddress s :
  reachable connectedAddress s -> PlayerRelayerChunkPosition (components s) = ∅.
Proof.
  induction 1 as [|s ev s' _ IH Hstep]; [done|].
  by apply (step_relayer_chunk _ _ _ _ IH Hstep).
Qed.

End RelayerChunk.

(** C10.  In every state the system can reach: the handler of inbound
    messages sets, for the sender's entity, the components PlayerPosition,
    PlayerDirection and PlayerLastMessage and leaves
    PlayerRelayerChunkPosition untouched; no entity has a
    PlayerRelayerChunkPosition; the query of the removed-chunk subscriber
    therefore matches no entity and the subscriber leaves the store as it
    is; and an event after which an entity has lost its position is a tick
    of the cleanup timer. *)
Theorem relayer_chunk_never_set (connectedAddress : option string) (s : State)
    (Hreach : reachable connectedAddress s) :
  (forall now address data s',
      onRelayEvent connectedAddress now address data s = Some s' ->
      s' = s \/
      exists entity decoded,
        decodeMessage data = Some decoded /\
        PlayerPosition (components s') =
          <[entity := {| pos_x := element (position decoded) 0;
                         pos_y := element (position decoded) 1;
                         pos_z := element (position decoded) 2 |}]>
            (PlayerPosition (components s)) /\
        PlayerDirection (components s') =
          <[entity := {| qx := element (direction decoded) 0;
                         qy := element (direction decoded) 1;
                         qz := element (direction decoded) 2;
                         qw := element (direction decoded) 3 |}]>
            (PlayerDirection (components s)) /\
        PlayerLastMessage (components s') =
          <[entity := now]> (PlayerLastMessage (components s)) /\
        PlayerRelayerChunkPosition (components s') =
          PlayerRelayerChunkPosition (components s)) /\
  PlayerRelayerChunkPosition (components s) = ∅ /\
  (forall chunk,
      runQuery [Has (PlayerDirection (components s)); Has (PlayerPosition (components s));
                HasValue (PlayerRelayerChunkPosition (components s)) chunk] = ∅ /\
      components (removedChunksSubcription chunk s) = components s) /\
  (forall ev s' player,
      step connectedAddress ev s = Some s' ->
      is_Some (PlayerPosition (components s) !! player) ->
      PlayerPosition (components s') !! player = None ->
      exists now, ev = CleanupTick now).
Proof.
  pose proof (reachable_relayer_chunk _ _ Hreach) as Hempty.
  split; [intros now address data s'; apply onRelayEvent_components|].
  split; [done|].
  split; [intros chunk; by apply removedChunksSubcription_components|].
  intros ev s' player Hstep [p Hp] Hgone.
  destruct ev as [c|chunk|chunk|chunk pos dir|now address data|now];
    cbn [step] in Hstep.
  - rewrite (onPlayerPosition_components _ _ _ Hempty Hstep) in Hgone. congruence.
  - injection Hstep as <-. cbn in Hgone. congruence.
  - injection Hstep as <-.
    destruct (removedChunksSubcription_components chunk s Hempty) as [_ Hc].
    rewrite Hc in Hgone. congruence.
  - injection Hstep as <-. cbn in Hgone. congruence.
  - apply onRelayEvent_components in Hstep
      as [->|(entity & decoded & _ & Hpos & _)]; [congruence|].
    rewrite Hpos in Hgone.
    destruct (decide (entity = player)) as [->|Hne].
    + by rewrite lookup_insert_eq in Hgone.
    + rewrite lookup_insert_ne in Hgone by done. congruence.
  - by exists now.
Qed.

Lemma relayer_chunk_never_set_witness :
  PlayerPosition (components stateWithPlayer) !! 0%nat
    = Some {| pos_x := zero; pos_y := zero; pos_z := zero |} /\
  PlayerRelayerChunkPosition (components stateWithPlayer) = ∅ /\
  components (removedChunksSubcription (chunkAt 0 0) stateWithPlayer)
    = components stateWithPlayer.
Proof.
  assert (Hreach : reachable None stateWithPlayer).
  { apply (reachable_step None stateAtOrigin (RelayEvent 5 "0xB0B" originMessage));
      [|vm_compute; reflexivity].
    apply (reachable_step None initialState (PlayerPositionSample (observerAt 0)));
      [|vm_compute; reflexivity].
    apply reachable_initial. }
  destruct (relayer_chunk_never_set None stateWithPlayer Hreach)
    as (_ & Hempty & Hremoved & _).
  split; [reflexivity|]. split; [exact Hempty|].
  exact (proj2 (Hremoved (chunkAt 0 0))).
Defined.

(** * Further properties of the code *)

(** ** Topics *)

Section Topics.

Lemma append_nil (t : string) : "" +:+ t = t.
Proof. reflexivity. Qed.

Lemma append_cons a (s t : string) : String a s +:+ t = String a (s +:+ t).
Proof. reflexivity. Qed.

Lemma has_char_append c (s t : string) :
  has_char c (s +:+ t) = has_char c s || has_char c t.
Proof.
  induction s as [|a s IH]; [done|].
  rewrite append_cons. cbn [has_char]. by case_decide.
Qed.

Lemma pretty_N_char_digit x : is_digit (pretty_N_char x) = true.
Proof.
  unfold pretty_N_char. by repeat case_match.
Qed.

Lemma has_char_pretty_N_go c x :
  is_digit c = false ->
  forall s, has_char c (pretty_N_go x s) = has_char c s.
Proof.
  intros Hc. induction (N.lt_wf_0 x) as [x _ IH]; intros s.
  assert (x = 0 \/ 0 < x)%N as [->|Hx] by lia.
  - by rewrite pretty_N_go_0.
  - rewrite pretty_N_go_step by done.
    rewrite IH by (by apply N.div_lt). cbn [has_char].
    case_decide as E; [|done].
    rewrite <- E, pretty_N_char_digit in Hc. done.
Qed.

Lemma has_char_pretty_N c (x : N) :
  is_digit c = false -> has_char c (pretty x) = false.
Proof.
  intros Hc. unfold pretty, pretty_N. case_decide.
  - cbn [has_char]. case_decide as E; [|done]. by rewrite <- E in Hc.
  - by rewrite has_char_pretty_N_go.
Qed.

Lemma has_char_pretty_Z c (z : Z) :
  is_digit c = false -> c <> "-"%char -> has_char c (pretty z) = false.
Proof.
  intros Hc Hdash. destruct z as [|p|p]; unfold pretty, pretty_Z.
  - apply (has_char_pretty_N c 0 Hc).
  - apply (has_char_pretty_N c (N.pos p) Hc).
  - rewrite append_cons, append_nil. cbn [has_char].
    rewrite decide_False by done. apply (has_char_pretty_N c (N.pos p) Hc).
Qed.

(** A string is cut in one way only at the first occurrence of a character. *)
Lemma append_delimiter_inj d (s1 s2 t1 t2 : string) :
  has_char d s1 = false -> has_char d s2 = false ->
  s1 +:+ String d t1 = s2 +:+ String d t2 -> s1 = s2 /\ t1 = t2.
Proof.
  revert s2. induction s1 as [|a s1 IH]; intros [|b s2] H1 H2;
    rewrite ?append_nil, ?append_cons; intros E.
  - by injection E as ->.
  - injection E as <- _. cbn [has_char] in H2. by rewrite decide_True in H2.
  - injection E as -> _. cbn [has_char] in H1. by rewrite decide_True in H1.
  - injection E as <- E. cbn [has_char] in H1, H2.
    destruct (decide (a = d)); [done|].
    destruct (IH s2 H1 H2 E) as [-> ->]. done.
Qed.

Lemma Number_toString_no c (i : intnum) :
  c ∈ [","; ")"]%char -> has_char c (Number_toString i) = false.
Proof.
  intros Hc. destruct i as [z| |[]]; cbn [Number_toString].
  - apply has_char_pretty_Z;
      repeat (apply elem_of_cons in Hc as [->|Hc]; [done|]);
      by apply elem_of_nil in Hc.
  - repeat (apply elem_of_cons in Hc as [->|Hc]; [done|]). by apply elem_of_nil in Hc.
  - repeat (apply elem_of_cons in Hc as [->|Hc]; [done|]). by apply elem_of_nil in Hc.
  - repeat (apply elem_of_cons in Hc as [->|Hc]; [done|]). by apply elem_of_nil in Hc.
Qed.

Lemma Number_toString_inj i j : Number_toString i = Number_toString j -> i = j.
Proof.
  assert (HN : forall z, has_char "N" (pretty z) = false)
    by (intros z; by apply has_char_pretty_Z).
  assert (HI : forall z, has_char "I" (pretty z) = false)
    by (intros z; by apply has_char_pretty_Z).
  destruct i as [z| |[]], j as [z'| |[]]; cbn [Number_toString]; intros E;
    try done;
    try (by apply (inj pretty) in E; subst);
    try (pose proof (HN z) as H; rewrite E in H; done);
    try (pose proof (HN z') as H; rewrite <- E in H; done);
    try (pose proof (HI z) as H; rewrite E in H; done);
    try (pose proof (HI z') as H; rewrite <- E in H; done).
Qed.

Lemma createChunkTopicMessage_inj (c1 c2 : ChunkCoord) :
  createChunkTopicMessage c1 = createChunkTopicMessage c2 -> c1 = c2.
Proof.
  unfold createChunkTopicMessage.
  rewrite !append_cons, !append_nil. intros [= E].
  apply append_delimiter_inj in E as [Ex E];
    [|apply Number_toString_no; set_solver..].
  change ")" with (String ")" "") in E.
  apply append_delimiter_inj in E as [Ey _];
    [|apply Number_toString_no; set_solver..].
  apply Number_toString_inj in Ex, Ey.
  destruct c1, c2; cbn in *; by subst.
Qed.

End Topics.


(** ** Upserts of the inbound-message handler *)

Section Handler.

Lemma entityToIndex_lookup (l : list string) id i :
  entityToIndex l id = Some i -> l !! i = Some id.
Proof.
  revert i. induction l as [|e l IH]; intros i; cbn [entityToIndex]; [done|].
  case_decide as He; [by intros [= <-]; subst|].
  destruct (entityToIndex l id) as [j|]; [|done].
  intros [= <-]. by apply IH.
Qed.

Lemma entityToIndex_None (l : list string) id :
  entityToIndex l id = None <-> id ∉ l.
Proof.
  induction l as [|e l IH]; cbn [entityToIndex].
  - split; [|done]. intros _ ?%elem_of_nil. done.
  - rewrite not_elem_of_cons. case_decide as He.
    + split; [done|]. intros [? _]. congruence.
    + destruct (entityToIndex l id) as [j|]; cbn.
      * split; [done|]. intros [_ Hl]. by apply IH in Hl.
      * split; [|done]. intros _. split; [congruence|]. by apply IH.
Qed.

Lemma entityToIndex_app (l : list string) id other :
  entityToIndex (l ++ [other]) id =
  match entityToIndex l id with
  | Some i => Some i
  | None => if decide (other = id) then Some (length l) else None
  end.
Proof.
  induction l as [|e l IH]; cbn [app entityToIndex length].
  - by case_decide.
  - destruct (decide (e = id)); [done|]. rewrite IH.
    destruct (entityToIndex l id); [done|]. cbn. by case_decide.
Qed.

Lemma registerEntity_index (l : list string) id :
  entityToIndex (fst (registerEntity l id)) id = Some (snd (registerEntity l id)).
Proof.
  unfold registerEntity. destruct (entityToIndex l id) as [i|] eqn:E; cbn [fst snd].
  - done.
  - rewrite entityToIndex_app, E. by rewrite decide_True.
Qed.

Lemma registerEntity_again (l : list string) id :
  registerEntity (fst (registerEntity l id)) id = registerEntity l id.
Proof.
  pose proof (registerEntity_index l id) as E.
  unfold registerEntity at 1. rewrite E. by destruct (registerEntity l id).
Qed.

Lemma registerEntity_NoDup (l : list string) id :
  NoDup l -> NoDup (fst (registerEntity l id)).
Proof.
  intros Hl. unfold registerEntity.
  destruct (entityToIndex l id) as [i|] eqn:E; cbn [fst]; [done|].
  apply NoDup_app. split; [done|]. split; [|apply NoDup_singleton].
  intros x Hx ->%list_elem_of_singleton. by apply entityToIndex_None in E.
Qed.

Lemma registerEntity_keeps (l : list string) id i :
  l !! i <> None -> fst (registerEntity l id) !! i <> None.
Proof.
  unfold registerEntity. destruct (entityToIndex l id); cbn [fst]; [done|].
  destruct (l !! i) as [x|] eqn:E; [|done]. intros _.
  by rewrite (lookup_app_l_Some _ _ _ _ E).
Qed.

Lemma onRelayEvent_accepted connectedAddress now address data s decoded :
  decodeMessage data = Some decoded ->
  Some address <> connectedAddress ->
  CoordMap_get (visibleChunks s) (playerChunkOf decoded) = Some true ->
  onRelayEvent connectedAddress now address data s
    = Some (upsertPlayer now address decoded s).
Proof.
  intros Hdec Hsender Hvis. unfold onRelayEvent. rewrite Hdec.
  rewrite decide_False by done.
  unfold playerChunkOf in Hvis. unfold CoordMap_has. rewrite Hvis. cbn [negb orb truthy].
  unfold upsertPlayer. by destruct (registerEntity (entities s) address).
Qed.

Lemma onRelayEvent_cases connectedAddress now address data s s' :
  onRelayEvent connectedAddress now address data s = Some s' ->
  s' = s \/
  exists decoded,
    decodeMessage data = Some decoded /\
    Some address <> connectedAddress /\
    CoordMap_get (visibleChunks s) (playerChunkOf decoded) = Some true /\
    s' = upsertPlayer now address decoded s.
Proof.
  destruct (decodeMessage_total data) as [decoded Hdec].
  destruct (decide (Some address = connectedAddress)) as [Hself|Hother].
  { unfold onRelayEvent. rewrite Hdec, decide_True by done. intros [= <-]. by left. }
  destruct (CoordMap_get (visibleChunks s) (playerChunkOf decoded)) as [[|]|] eqn:Hvis.
  - rewrite (onRelayEvent_accepted _ _ _ _ _ decoded Hdec Hother Hvis).
    intros [= <-]. right. by exists decoded.
  - unfold onRelayEvent. rewrite Hdec, decide_False by done.
    unfold playerChunkOf in Hvis. unfold CoordMap_has. rewrite Hvis. cbn.
    intros [= <-]. by left.
  - unfold onRelayEvent. rewrite Hdec, decide_False by done.
    unfold playerChunkOf in Hvis. unfold CoordMap_has. rewrite Hvis. cbn.
    intros [= <-]. by left.
Qed.

Lemma upsertPlayer_again now1 now2 address decoded1 decoded2 s :
  upsertPlayer now2 address decoded2 (upsertPlayer now1 address decoded1 s)
  = upsertPlayer now2 address decoded2 s.
Proof.
  unfold upsertPlayer. cbn [entities components visibleChunks relay
    PlayerPosition PlayerDirection PlayerRelayerChunkPosition PlayerLastMessage].
  rewrite registerEntity_again. by rewrite !insert_insert_eq.
Qed.

End Handler.

(** X4.  A decoded message from a sender other than the local address,
    whose chunk is held as visible, is accepted: the sender is registered
    under its address, its entity gets the decoded position and direction
    and the current time as timestamp, and nothing else changes (the other
    entities, the chunk component, the visible set, the transport). *)
Theorem accepted_message_upserts (connectedAddress : option string) (now : Z)
    (address : string) (data : list Byte.byte) (s : State) (decoded : DecodedMessage)
    (Hdecoded : decodeMessage data = Some decoded)
    (Hsender : Some address <> connectedAddress)
    (Hvisible : CoordMap_get (visibleChunks s) (playerChunkOf decoded) = Some true) :
  exists s' entity,
    onRelayEvent connectedAddress now address data s = Some s' /\
    entityToIndex (entities s') address = Some entity /\
    (forall i id, entities s !! i = Some id -> entities s' !! i = Some id) /\
    playerState (components s') entity =
      (Some (positionOf decoded), Some (directionOf decoded),
       PlayerRelayerChunkPosition (components s) !! entity, Some now) /\
    (forall other, other <> entity ->
       playerState (components s') other = playerState (components s) other) /\
    visibleChunks s' = visibleChunks s /\
    relay s' = relay s.
Proof.
  exists (upsertPlayer now address decoded s), (snd (registerEntity (entities s) address)).
  split; [by apply onRelayEvent_accepted|].
  split; [apply registerEntity_index|]. split.
  { intros i id Hi. unfold upsertPlayer, registerEntity. cbn [entities].
    destruct (entityToIndex (entities s) address); cbn [fst]; [done|].
    by apply lookup_app_l_Some. }
  unfold playerState, upsertPlayer. cbn. split.
  { by rewrite !lookup_insert_eq. }
  split; [|done]. intros other Hother. by rewrite !lookup_insert_ne.
Qed.

Lemma accepted_message_upserts_witness :
  exists s' entity,
    onRelayEvent None 5 "0xB0B" originMessage stateAtOrigin = Some s' /\
    entityToIndex (entities s') "0xB0B" = Some entity /\
    PlayerLastMessage (components s') !! entity = Some 5%Z.
Proof.
  destruct (accepted_message_upserts None 5 "0xB0B" originMessage stateAtOrigin
              {| position := map (fun v => fromFixedPoint (quantized v)) (onAxis zero);
                 direction := map (fun v => fromFixedPoint (quantized v)) unitDirection |}
              eq_refl ltac:(discriminate) eq_refl)
    as (s' & entity & Hs & Hindex & _ & Hstate & _).
  exists s', entity. split; [exact Hs|]. split; [exact Hindex|].
  exact (f_equal snd Hstate).
Defined.

(** X5.  The last message wins: when a message of some sender is accepted,
    whatever an earlier message of the same sender did is overwritten; the
    state is the one the later message alone would have produced. *)
Theorem last_message_wins (connectedAddress : option string) (now1 now2 : Z)
    (address : string) (data1 data2 : list Byte.byte) (s s1 : State)
    (decoded2 : DecodedMessage)
    (Hfirst : onRelayEvent connectedAddress now1 address data1 s = Some s1)
    (Hdecoded : decodeMessage data2 = Some decoded2)
    (Hvisible : CoordMap_get (visibleChunks s) (playerChunkOf decoded2) = Some true) :
  onRelayEvent connectedAddress now2 address data2 s1
  = onRelayEvent connectedAddress now2 address data2 s.
Proof.
  apply onRelayEvent_cases in Hfirst as [->|(decoded1 & _ & Hsender & _ & ->)]; [done|].
  rewrite (onRelayEvent_accepted _ _ _ _ _ decoded2 Hdecoded Hsender); [|done].
  rewrite (onRelayEvent_accepted _ _ _ _ _ decoded2 Hdecoded Hsender Hvisible).
  by rewrite upsertPlayer_again.
Qed.

Lemma last_message_wins_witness :
  onRelayEvent None 9 "0xB0B" originMessage stateWithPlayer
  = onRelayEvent None 9 "0xB0B" originMessage stateAtOrigin.
Proof.
  apply (last_message_wins None 5 9 "0xB0B" originMessage originMessage
           stateAtOrigin stateWithPlayer
           {| position := map (fun v => fromFixedPoint (quantized v)) (onAxis zero);
              direction := map (fun v => fromFixedPoint (quantized v)) unitDirection |}).
  - vm_compute. reflexivity.
  - reflexivity.
  - reflexivity.
Defined.

(** X6.  A duplicate is harmless: handling the same message again, at the
    same time, leaves the state that the first handling produced. *)
Theorem duplicate_message_idempotent (connectedAddress : option string) (now : Z)
    (address : string) (data : list Byte.byte) (s s1 : State)
    (Hfirst : onRelayEvent connectedAddress now address data s = Some s1) :
  onRelayEvent connectedAddress now address data s1 = Some s1.
Proof.
  pose proof Hfirst as Hcases.
  apply onRelayEvent_cases in Hcases as [->|(decoded & Hdec & Hsender & Hvis & ->)];
    [done|].
  rewrite (onRelayEvent_accepted _ _ _ _ _ decoded Hdec Hsender); [|done].
  by rewrite upsertPlayer_again.
Qed.

Lemma duplicate_message_idempotent_witness :
  onRelayEvent None 5 "0xB0B" originMessage stateWithPlayer = Some stateWithPlayer.
Proof.
  apply (duplicate_message_idempotent None 5 "0xB0B" originMessage
           stateAtOrigin stateWithPlayer).
  vm_compute. reflexivity.
Defined.

(** ** Cleanup ticks and the life of a player *)

Section Lifetime.

Local Open Scope Z_scope.

Lemma components_ext (c c' : Components) :
  (forall entity, playerState c entity = playerState c' entity) -> c = c'.
Proof.
  intros H. destruct c as [pp pr pd pl], c' as [pp' pr' pd' pl'].
  unfold playerState in H. cbn in H.
  f_equal; apply map_eq; intros entity; specialize (H entity); congruence.
Qed.

Lemma cleanupComponents_merge now1 now2 c c1 :
  cleanupComponents now1 c = Some c1 -> now1 <= now2 ->
  cleanupComponents now2 c1 = cleanupComponents now2 c.
Proof.
  intros H1 Hle.
  destruct (cleanupComponents_spec now1 c) as (c1' & E1 & S1).
  rewrite H1 in E1. injection E1 as <-.
  destruct (cleanupComponents_spec now2 c1) as (c2 & -> & S2).
  destruct (cleanupComponents_spec now2 c) as (c2' & -> & S2').
  f_equal. apply components_ext. intros entity.
  rewrite (S2 entity), (S2' entity).
  pose proof (S1 entity) as Hs.
  destruct (PlayerLastMessage c !! entity) as [l|] eqn:El.
  - destruct (decide (now1 - l > TIMEOUT)) as [Hstale|Hfresh].
    + rewrite decide_True by lia.
      rewrite (playerState_lastMessage _ (removePlayerComponent entity c) entity)
        by (by rewrite playerState_removed).
      cbn [removePlayerComponent PlayerLastMessage]. by rewrite lookup_delete_eq.
    + rewrite (playerState_lastMessage _ _ _ Hs), El, Hs. done.
  - rewrite (playerState_lastMessage _ _ _ Hs), El. done.
Qed.

End Lifetime.

(** X7.  Cleanup ticks merge: a tick followed by a later tick leaves the
    store that the later tick alone would have left; in particular a tick
    repeated at the same time changes nothing more. *)
Theorem cleanup_ticks_merge (now1 now2 : Z) (s s1 : State)
    (Hfirst : onCleanupTick now1 s = Some s1) (Hlater : (now1 <= now2)%Z) :
  onCleanupTick now2 s1 = onCleanupTick now2 s.
Proof.
  unfold onCleanupTick in *.
  destruct (cleanupComponents now1 (components s)) as [c1|] eqn:E1; [|done].
  injection Hfirst as <-. cbn [components entities visibleChunks relay].
  by rewrite (cleanupComponents_merge now1 now2 _ _ E1 Hlater).
Qed.

Lemma cleanup_ticks_merge_witness :
  onCleanupTick 4000 stateAfterCleanup = onCleanupTick 4000 stateWithPlayer.
Proof.
  apply (cleanup_ticks_merge 2000 4000 stateWithPlayer stateAfterCleanup).
  - vm_compute. reflexivity.
  - lia.
Defined.

(** X8.  The life of an accepted player: after its message was accepted at
    time [now], a cleanup tick at time [tick] removes the player, all
    components together, when [tick - now > TIMEOUT], and otherwise leaves
    it with the decoded position and direction and the timestamp [now]. *)
Theorem accepted_player_lifetime (connectedAddress : option string) (now tick : Z)
    (address : string) (data : list Byte.byte) (s : State) (decoded : DecodedMessage)
    (Hdecoded : decodeMessage data = Some decoded)
    (Hsender : Some address <> connectedAddress)
    (Hvisible : CoordMap_get (visibleChunks s) (playerChunkOf decoded) = Some true) :
  exists s1 s2 entity,
    onRelayEvent connectedAddress now address data s = Some s1 /\
    entityToIndex (entities s1) address = Some entity /\
    onCleanupTick tick s1 = Some s2 /\
    ((tick - now > TIMEOUT)%Z ->
       playerState (components s2) entity = noPlayerState) /\
    ((tick - now <= TIMEOUT)%Z ->
       playerState (components s2) entity =
         (Some (positionOf decoded), Some (directionOf decoded),
          PlayerRelayerChunkPosition (components s) !! entity, Some now)).
Proof.
  exists (upsertPlayer now address decoded s).
  destruct (cleanupComponents_spec tick (components (upsertPlayer now address decoded s)))
    as (c2 & Hc2 & Hstate).
  eexists _, (snd (registerEntity (entities s) address)).
  split; [by apply onRelayEvent_accepted|].
  split; [apply registerEntity_index|].
  split; [unfold onCleanupTick; by rewrite Hc2|].
  cbn [components]. specialize (Hstate (snd (registerEntity (entities s) address))).
  unfold upsertPlayer in Hstate at 2. cbn in Hstate.
  rewrite lookup_insert_eq in Hstate. split; intros Htick.
  - by rewrite decide_True in Hstate.
  - rewrite decide_False in Hstate by lia. rewrite Hstate.
    unfold playerState, upsertPlayer. cbn. by rewrite !lookup_insert_eq.
Qed.

Lemma accepted_player_lifetime_witness :
  exists s1 s2 entity,
    onRelayEvent None 5 "0xB0B" originMessage stateAtOrigin = Some s1 /\
    entityToIndex (entities s1) "0xB0B" = Some entity /\
    onCleanupTick 2000 s1 = Some s2 /\
    playerState (components s2) entity = noPlayerState.
Proof.
  destruct (accepted_player_lifetime None 5 2000 "0xB0B" originMessage stateAtOrigin
              {| position := map (fun v => fromFixedPoint (quantized v)) (onAxis zero);
                 direction := map (fun v => fromFixedPoint (quantized v)) unitDirection |}
              eq_refl ltac:(discriminate) eq_refl)
    as (s1 & s2 & entity & H1 & Hindex & H2 & Hstale & _).
  exists s1, s2, entity. split; [exact H1|]. split; [exact Hindex|].
  split; [exact H2|]. apply Hstale. unfold TIMEOUT. lia.
Defined.

(** ** The store of the reachable states *)

Section Coherence.

Lemma addedChunks_entities chunks s :
  entities (foldl (fun s chunk => addedChunkSubscription chunk s) s chunks) = entities s.
Proof.
  revert s. induction chunks as [|chunk chunks IH]; intros s; [done|].
  cbn [foldl]. by rewrite IH.
Qed.

Lemma removedChunks_entities chunks s :
  entities (foldl (fun s chunk => removedChunksSubcription chunk s) s chunks) = entities s.
Proof.
  revert s. induction chunks as [|chunk chunks IH]; intros s; [done|].
  cbn [foldl]. by rewrite IH.
Qed.

Lemma onPlayerPosition_entities c s s' :
  onPlayerPosition c s = Some s' -> entities s' = entities s.
Proof.
  unfold onPlayerPosition.
  destruct (createChunks _ _ _ _) as [[chunksInArea events]|]; [|done].
  intros [= <-]. by rewrite removedChunks_entities, addedChunks_entities.
Qed.

Lemma coherent_same s s' :
  entities s' = entities s -> components s' = components s ->
  coherent s -> coherent s'.
Proof.
  unfold coherent. by intros -> ->.
Qed.

Lemma step_coherent connectedAddress ev s s' :
  PlayerRelayerChunkPosition (components s) = ∅ ->
  coherent s -> step connectedAddress ev s = Some s' -> coherent s'.
Proof.
  intros Hempty Hs.
  destruct ev as [c|chunk|chunk|chunk pos dir|now address data|now]; cbn [step].
  - intros Hstep. apply (coherent_same s); [|  |done].
    + by apply (onPlayerPosition_entities c).
    + by apply (onPlayerPosition_components c).
  - intros [= <-]. by apply (coherent_same s).
  - intros [= <-]. apply (coherent_same s); [done| |done].
    by destruct (removedChunksSubcription_components chunk s Hempty) as [_ ->].
  - intros [= <-]. by apply (coherent_same s).
  - intros [->|(decoded & _ & _ & _ & ->)]%onRelayEvent_cases; [done|].
    destruct Hs as [Hnd Hs]. split.
    + by apply registerEntity_NoDup.
    + intros entity. unfold upsertPlayer.
      cbn [components entities PlayerPosition PlayerDirection PlayerLastMessage].
      destruct (decide (snd (registerEntity (entities s) address) = entity)) as [<-|Hne].
      * rewrite !lookup_insert_eq. repeat split; try (intros; by eexists).
        intros _. rewrite (entityToIndex_lookup _ address); [done|].
        apply registerEntity_index.
      * rewrite !lookup_insert_ne by done.
        destruct (Hs entity) as (H1 & H2 & H3). repeat split; try tauto.
        intros H. by apply registerEntity_keeps, H3.
  - unfold onCleanupTick.
    destruct (cleanupComponents_spec now (components s)) as (c & -> & Hstate).
    intros [= <-]. destruct Hs as [Hnd Hs]. split; [done|].
    intros entity. cbn [components entities].
    specialize (Hstate entity). destruct (Hs entity) as (H1 & H2 & H3).
    assert (Hcase : playerState c entity = noPlayerState \/
                    playerState c entity = playerState (components s) entity).
    { destruct (PlayerLastMessage (components s) !! entity);
        [case_decide|]; first [by left | by right]. }
    unfold playerState, noPlayerState in Hcase.
    destruct Hcase as [[= -> -> _ ->]|[= -> -> _ ->]].
    + repeat split; try done; by intros [? ?].
    + done.
Qed.

Lemma reachable_coherent connectedAddress s :
  reachable connectedAddress s -> coherent s.
Proof.
  induction 1 as [|s ev s' Hreach IH Hstep].
  - split; [apply NoDup_nil_2|]. intros entity. cbn.
    rewrite !lookup_empty. repeat split; try done; by intros [? ?].
  - apply (step_coherent connectedAddress ev s); [|done|done].
    by apply (reachable_relayer_chunk connectedAddress).
Qed.

End Coherence.

(** X9.  In every state the system can reach, the store holds whole players
    only: an entity has a position exactly when it has a timestamp, and a
    direction exactly when it has a timestamp; every such entity is a
    registered one; and no address is registered twice. *)
Theorem reachable_store_coherent (connectedAddress : option string) (s : State)
    (Hreach : reachable connectedAddress s) :
  NoDup (entities s) /\
  forall entity,
    (is_Some (PlayerPosition (components s) !! entity) <->
     is_Some (PlayerLastMessage (components s) !! entity)) /\
    (is_Some (PlayerDirection (components s) !! entity) <->
     is_Some (PlayerLastMessage (components s) !! entity)) /\
    (is_Some (PlayerLastMessage (components s) !! entity) ->
     entities s !! entity <> None).
Proof. by apply (reachable_coherent connectedAddress). Qed.

Lemma reachable_store_coherent_witness :
  NoDup (entities stateWithPlayer) /\
  (is_Some (PlayerLastMessage (components stateWithPlayer) !! 0%nat) ->
   entities stateWithPlayer !! 0%nat <> None).
Proof.
  assert (Hreach : reachable None stateWithPlayer).
  { apply (reachable_step None stateAtOrigin (RelayEvent 5 "0xB0B" originMessage));
      [|vm_compute; reflexivity].
    apply (reachable_step None initialState (PlayerPositionSample (observerAt 0)));
      [|vm_compute; reflexivity].
    apply reachable_initial. }
  destruct (reachable_store_coherent None stateWithPlayer Hreach) as [Hnd Hs].
  split; [exact Hnd|]. exact (proj2 (proj2 (Hs 0%nat))).
Defined.

(** ** Subscriptions and visible chunks *)

Section Subscriptions.

Lemma CoordMap_get_set {T} (m : CoordMap T) (coord : ChunkCoord) (value : T) c :
  CoordMap_get (CoordMap_set m coord value) c =
  if decide (c = coord) then Some value else CoordMap_get m c.
Proof.
  unfold CoordMap_get.
  induction m as [|[k w] m IH]; cbn [CoordMap_set List.find fst].
  - case_bool_decide; by case_decide.
  - destruct (decide (k = coord)) as [->|Hk]; cbn [List.find fst].
    + case_bool_decide; by case_decide.
    + case_bool_decide as Hc; [|done]. subst k. by rewrite decide_False.
Qed.

Lemma allVisible_set (m : CoordMap bool) coord :
  allVisible m -> allVisible (CoordMap_set m coord true).
Proof.
  intros Hm c v. rewrite CoordMap_get_set. case_decide; [congruence|apply Hm].
Qed.

Lemma allVisible_foldl {A} (f : CoordMap bool -> A -> CoordMap bool) (l : list A) :
  (forall m a, allVisible m -> allVisible (f m a)) ->
  forall m, allVisible m -> allVisible (foldl f m l).
Proof.
  intros Hf. induction l as [|a l IH]; intros m Hm; [done|].
  cbn [foldl]. by apply IH, Hf.
Qed.

Lemma allVisible_nil : allVisible [].
Proof. by intros c v. Qed.

Lemma getChunksInArea_allVisible area chunkSize chunksInArea :
  getChunksInArea area chunkSize = Some chunksInArea -> allVisible chunksInArea.
Proof.
  unfold getChunksInArea.
  repeat case_match; try done. intros [= <-].
  apply allVisible_foldl; [|apply allVisible_nil]. intros m x Hm.
  apply allVisible_foldl; [|done]. intros m' y Hm'. by apply allVisible_set.
Qed.

Lemma truthy_get_false (m : CoordMap bool) c :
  allVisible m -> truthy (CoordMap_get m c) = false <-> c ∉ CoordMap_coords m.
Proof.
  intros Hm. rewrite <- CoordMap_has_coords. unfold CoordMap_has.
  destruct (CoordMap_get m c) as [v|] eqn:E; cbn [truthy].
  - rewrite (Hm c v E). split; [done|]. by intros [].
  - split; [|done]. by intros _ ?.
Qed.

Lemma addedChunks_relay chunks s :
  subscribed (relay (foldl (fun s chunk => addedChunkSubscription chunk s) s chunks))
  = subscribed (relay s) ∪ list_to_set (createChunkTopicMessage <$> chunks) /\
  visibleChunks (foldl (fun s chunk => addedChunkSubscription chunk s) s chunks)
  = visibleChunks s.
Proof.
  revert s. induction chunks as [|chunk chunks IH]; intros s; cbn [foldl].
  - split; [|done]. cbn [fmap list_fmap list_to_set]. by rewrite (right_id_L ∅ (∪)).
  - destruct (IH (addedChunkSubscription chunk s)) as [-> ->].
    split; [|done].
    cbn [addedChunkSubscription relay relay_subscribe subscribed fmap list_fmap
         list_to_set].
    rewrite (comm_L (∪) {[createChunkTopicMessage chunk]} (subscribed (relay s))).
    by rewrite (assoc_L (∪)).
Qed.

Lemma removedChunks_relay chunks s :
  subscribed (relay (foldl (fun s chunk => removedChunksSubcription chunk s) s chunks))
  = subscribed (relay s) ∖ list_to_set (createChunkTopicMessage <$> chunks) /\
  visibleChunks (foldl (fun s chunk => removedChunksSubcription chunk s) s chunks)
  = visibleChunks s.
Proof.
  revert s. induction chunks as [|chunk chunks IH]; intros s; cbn [foldl].
  - split; [|done]. cbn [fmap list_fmap list_to_set]. by rewrite difference_empty_L.
  - destruct (IH (removedChunksSubcription chunk s)) as [-> ->].
    split; [|done].
    cbn [removedChunksSubcription relay relay_unsubscribe subscribed fmap list_fmap
         list_to_set].
    by rewrite difference_difference_l_L.
Qed.

Lemma elem_of_topicsOf (m : CoordMap bool) topic :
  topic ∈ topicsOf m <->
  exists c, c ∈ CoordMap_coords m /\ topic = createChunkTopicMessage c.
Proof.
  unfold topicsOf. rewrite map_fmap, elem_of_list_to_set, list_elem_of_fmap.
  split; intros (c & H1 & H2); by exists c.
Qed.

Lemma onPlayerPosition_follow c s s' :
  subscriptionsFollow s -> onPlayerPosition c s = Some s' -> subscriptionsFollow s'.
Proof.
  intros [Hsub Hvis]. unfold onPlayerPosition, createChunks.
  destruct (getChunksInArea _ _) as [chunksInArea|] eqn:Harea; [|done].
  intros [= <-].
  destruct (removedChunks_relay
              (CoordMap_coords (subtract (visibleChunks s) chunksInArea))
              (foldl (fun s chunk => addedChunkSubscription chunk s)
                 {| entities := entities s; components := components s;
                    visibleChunks := chunksInArea; relay := relay s |}
                 (CoordMap_coords (subtract chunksInArea (visibleChunks s)))))
    as [Hr Hv].
  destruct (addedChunks_relay
              (CoordMap_coords (subtract chunksInArea (visibleChunks s)))
              {| entities := entities s; components := components s;
                 visibleChunks := chunksInArea; relay := relay s |})
    as [Ha Hva].
  pose proof (getChunksInArea_allVisible _ _ _ Harea) as Hnew.
  split; cbn [addedChunks removedChunks]; [|by rewrite Hv, Hva].
  rewrite Hr, Ha, Hv, Hva. cbn [relay visibleChunks]. rewrite Hsub.
  apply set_eq. intros topic.
  rewrite elem_of_difference, elem_of_union, !elem_of_list_to_set,
    !list_elem_of_fmap, !elem_of_topicsOf.
  setoid_rewrite subtract_coords. setoid_rewrite (truthy_get_false _ _ Hvis).
  setoid_rewrite (truthy_get_false _ _ Hnew).
  split.
  - intros [[(chunk & Hin & ->)|(chunk & -> & Hin & _)] Hkept]; [|by exists chunk].
    exists chunk. split; [|done].
    destruct (decide (chunk ∈ CoordMap_coords chunksInArea)); [done|].
    exfalso. apply Hkept. by exists chunk.
  - intros (chunk & Hin & ->). split.
    + destruct (decide (chunk ∈ CoordMap_coords (visibleChunks s)));
        [left|right]; by exists chunk.
    + intros (other & Heq & _ & Hout).
      apply createChunkTopicMessage_inj in Heq. by subst other.
Qed.

Lemma step_follow connectedAddress ev s s' :
  external ev -> subscriptionsFollow s -> step connectedAddress ev s = Some s' ->
  subscriptionsFollow s'.
Proof.
  intros Hext Hs.
  destruct ev as [c|chunk|chunk|chunk pos dir|now address data|now];
    cbn [step]; try done.
  - by apply onPlayerPosition_follow.
  - by intros [= <-].
  - by intros [->|(decoded & _ & _ & _ & ->)]%onRelayEvent_cases.
  - unfold onCleanupTick. destruct (cleanupComponents _ _); [|done].
    by intros [= <-].
Qed.

Lemma run_follow connectedAddress evs :
  forall s s', Forall external evs -> subscriptionsFollow s ->
    run connectedAddress evs s = Some s' -> subscriptionsFollow s'.
Proof.
  induction evs as [|ev evs IH]; intros s s' Hext Hs; cbn [run].
  - by intros [= <-].
  - apply Forall_cons in Hext as [Hev Hext].
    destruct (step connectedAddress ev s) as [s1|] eqn:Hstep; [|done].
    apply IH; [done|]. by apply (step_follow connectedAddress ev s).
Qed.

End Subscriptions.

(** X10.  Subscriptions follow the visible chunks: after any sequence of
    position samples, pose samples, inbound messages and cleanup ticks
    handled from the initial state, the subscribed topics are exactly the
    topics of the chunks of the visible set. *)
Theorem subscriptions_follow_visible_chunks (connectedAddress : option string)
    (evs : list Event) (s : State)
    (Hexternal : Forall external evs)
    (Hrun : run connectedAddress evs initialState = Some s) :
  forall topic,
    topic ∈ subscribed (relay s) <->
    exists chunk,
      chunk ∈ CoordMap_coords (visibleChunks s) /\
      topic = createChunkTopicMessage chunk.
Proof.
  assert (Hs : subscriptionsFollow s).
  { apply (run_follow connectedAddress evs initialState); [done| |done].
    split; [done|apply allVisible_nil]. }
  intros topic. destruct Hs as [-> _]. apply elem_of_topicsOf.
Qed.

Lemma subscriptions_follow_visible_chunks_witness :
  exists s,
    run None [PlayerPositionSample (observerAt 0);
              RelayEvent 5 "0xB0B" originMessage;
              PlayerPositionSample (observerAt 200)] initialState = Some s /\
    "c(4,0)" ∈ subscribed (relay s).
Proof.
  eexists. split; [vm_compute; reflexivity|].
  apply (subscriptions_follow_visible_chunks None
           [PlayerPositionSample (observerAt 0);
            RelayEvent 5 "0xB0B" originMessage;
            PlayerPositionSample (observerAt 200)]).
  - repeat constructor.
  - vm_compute. reflexivity.
  - exists (chunkAt 4 0). split; [|reflexivity].
    apply (bool_decide_unpack _). vm_compute. exact I.
Defined.

(** ** Further properties of the codec *)

(** X2.  Two poses are encoded as the same bytes exactly when their scalars
    have the same quantized integers, in order; the encoding does not
    depend on where the position ends and the direction begins. *)
Theorem encodeMessage_eq_iff (pos dir pos' dir' : list number) :
  encodeMessage pos dir = encodeMessage pos' dir' <->
  map quantized (pos ++ dir) = map quantized (pos' ++ dir').
Proof.
  rewrite !encodeMessage_flat_map. split.
  - apply flat_map_int32_inj; apply Forall_quantized; intros; apply quantized_range.
  - by intros ->.
Qed.

Lemma field_beyond_end data i :
  (i < 7)%nat -> (length data <= 4 * i)%nat ->
  field i (pad 28 data) = [Byte.x00; Byte.x00; Byte.x00; Byte.x00].
Proof.
  intros Hi Hlen. apply list_eq. intros k.
  rewrite lookup_field. case_decide as Hk.
  - rewrite lookup_pad, decide_True by lia.
    rewrite (proj2 (lookup_ge_None data (4 * i + k))) by lia.
    by do 4 (destruct k as [|k]; [done|]); lia.
  - by do 4 (destruct k as [|k]; [lia|]).
Qed.

(** X3.  Whatever the payload, [decodeMessage] does not raise and returns
    exactly three position scalars and four direction scalars; a scalar
    whose field starts at or after the end of the payload is decoded as 0. *)
Theorem decodeMessage_shape (data : list Byte.byte) :
  exists decoded,
    decodeMessage data = Some decoded /\
    length (position decoded) = 3%nat /\
    length (direction decoded) = 4%nat /\
    forall i, (i < 7)%nat -> (length data <= 4 * i)%nat ->
      (position decoded ++ direction decoded) !! i = Some zero.
Proof.
  eexists. split; [apply decodeMessage_fields|].
  cbn [position direction]. split; [done|]. split; [done|].
  intros i Hi Hlen.
  assert (Hz : scalarOfField data i = zero).
  { unfold scalarOfField. by rewrite field_beyond_end. }
  do 7 (destruct i as [|i]; [cbn; by rewrite Hz|]). lia.
Qed.

(** ** From the publisher to the receiver *)

(** X11.  End to end: the pose that [relayPositionAndDirection] publishes,
    when it is handled by a client other than its sender that holds the
    chunk of the quantized position as visible, gives the sender an entity
    whose position and direction are the quantized scalars divided by 100,
    with the time of reception as timestamp. *)
Theorem published_pose_is_received (chunk : ChunkCoord)
    (x y z dqx dqy dqz dqw : number) (r : Relay)
    (connectedAddress : option string) (now : Z) (address : string) (s : State)
    (Hsender : Some address <> connectedAddress)
    (Hvisible :
       CoordMap_get (visibleChunks s)
         (pixelToChunkCoord {| coord_x := fromFixedPoint (quantized x);
                               coord_y := fromFixedPoint (quantized z) |}
                            RELAY_CHUNK_SIZE) = Some true) :
  exists payload s' entity,
    pushed (relayPositionAndDirection chunk [x; y; z] [dqx; dqy; dqz; dqw] r)
      = pushed r ++ [(createChunkTopicMessage chunk, payload)] /\
    onRelayEvent connectedAddress now address payload s = Some s' /\
    entityToIndex (entities s') address = Some entity /\
    PlayerPosition (components s') !! entity =
      Some {| pos_x := fromFixedPoint (quantized x);
              pos_y := fromFixedPoint (quantized y);
              pos_z := fromFixedPoint (quantized z) |} /\
    PlayerDirection (components s') !! entity =
      Some {| qx := fromFixedPoint (quantized dqx);
              qy := fromFixedPoint (quantized dqy);
              qz := fromFixedPoint (quantized dqz);
              qw := fromFixedPoint (quantized dqw) |} /\
    PlayerLastMessage (components s') !! entity = Some now.
Proof.
  exists (encodeMessage [x; y; z] [dqx; dqy; dqz; dqw]).
  pose proof (decodeMessage_encodeMessage [x; y; z] [dqx; dqy; dqz; dqw]
                eq_refl eq_refl) as Hdec.
  eexists _, (snd (registerEntity (entities s) address)).
  split; [reflexivity|].
  split; [by apply (onRelayEvent_accepted _ _ _ _ _ _ Hdec)|].
  split; [apply registerEntity_index|].
  unfold upsertPlayer. cbn [components PlayerPosition PlayerDirection PlayerLastMessage].
  by rewrite !lookup_insert_eq.
Qed.

Lemma published_pose_is_received_witness :
  exists payload s' entity,
    pushed (relayPositionAndDirection (chunkAt 0 0)
              [decimal 1005 1000; decimal (-234) 100; zero] [zero; zero; zero; Z2num 1]
              (relay initialState))
      = [(createChunkTopicMessage (chunkAt 0 0), payload)] /\
    onRelayEvent None 5 "0xB0B" payload stateAtOrigin = Some s' /\
    entityToIndex (entities s') "0xB0B" = Some entity /\
    PlayerLastMessage (components s') !! entity = Some 5%Z.
Proof.
  destruct (published_pose_is_received (chunkAt 0 0)
              (decimal 1005 1000) (decimal (-234) 100) zero zero zero zero (Z2num 1)
              (relay initialState) None 5 "0xB0B" stateAtOrigin
              ltac:(discriminate) eq_refl)
    as (payload & s' & entity & Hpush & Hs & Hindex & _ & _ & Hlast).
  exists payload, s', entity. split; [exact Hpush|]. split; [exact Hs|].
  split; [exact Hindex|exact Hlast].
Defined.

(** ** Block icons *)

(** X12.  [getBlockIconUrl] is never undefined; it is the empty string for
    [Air] and for no other block type, and for every other block type a
    path of the form [./assets/blocks/....png]. *)
Theorem block_icon_defined (blockType : BlockType.t) :
  exists url,
    getBlockIconUrl blockType = Some url /\
    (url = "" <-> blockType = BlockType.Air) /\
    (blockType <> BlockType.Air ->
       String.prefix "./assets/blocks/" url = true /\ lastChars 4 url = ".png").
Proof.
  destruct blockType; eexists; (split; [reflexivity|]); split;
    try (split; [done|done]); try (intros _; by split); by intros [].
Qed.

(** X13.  Block types are told apart by their icons: two block types with
    the same icon are the same block type. *)
Theorem block_icon_inj (b1 b2 : BlockType.t) :
  getBlockIconUrl b1 = getBlockIconUrl b2 -> b1 = b2.
Proof.
  destruct b1, b2; vm_compute; intros E; first [reflexivity | discriminate E].
Qed.

Lemma block_icon_inj_witness :
  getBlockIconUrl BlockType.Log = Some "./assets/blocks/log_oak_top.png" /\
  BlockType.Log = BlockType.Log.
Proof.
  split; [reflexivity|].
  apply (block_icon_inj BlockType.Log BlockType.Log). reflexivity.
Defined.

(** ** The order of the cleanup loop *)

(** X15.  The outcome of the cleanup loop does not depend on the order in
    which the players are visited: two enumerations of the same players,
    all of which have a timestamp, give the same store. *)
Theorem cleanup_order_irrelevant (timeOut : Z) (c : Components)
    (players players' : list nat)
    (Hnodup : NoDup players) (Hperm : players ≡ₚ players')
    (Hstamped : forall player, player ∈ players ->
                  is_Some (PlayerLastMessage c !! player)) :
  foldl (cleanupPlayer timeOut) (Some c) players
  = foldl (cleanupPlayer timeOut) (Some c) players'.
Proof.
  destruct (cleanup_loop timeOut c players Hnodup Hstamped) as (c1 & -> & H1).
  destruct (cleanup_loop timeOut c players') as (c2 & -> & H2).
  { by rewrite <- Hperm. }
  { intros player Hin. apply Hstamped. by rewrite Hperm. }
  f_equal. apply components_ext. intros entity.
  rewrite (H1 entity), (H2 entity).
  destruct (PlayerLastMessage c !! entity); [|done].
  repeat case_decide; try done; exfalso.
  - match goal with H : ¬ _ |- _ => apply H end.
    match goal with H : _ /\ _ |- _ => destruct H as [Hin ?] end.
    split; [|done]. by rewrite <- Hperm.
  - match goal with H : ¬ _ |- _ => apply H end.
    match goal with H : _ /\ _ |- _ => destruct H as [Hin ?] end.
    split; [|done]. by rewrite Hperm.
Qed.

Lemma cleanup_order_irrelevant_witness :
  foldl (cleanupPlayer 1000) (Some (components stateWithTwoPlayers)) [0; 1]%nat
  = foldl (cleanupPlayer 1000) (Some (components stateWithTwoPlayers)) [1; 0]%nat.
Proof.
  apply cleanup_order_irrelevant.
  - apply (bool_decide_unpack _). vm_compute. exact I.
  - apply perm_swap.
  - intros player Hin.
    apply elem_of_cons in Hin as [->|Hin]; [exists 5%Z; vm_compute; reflexivity|].
    apply elem_of_cons in Hin as [->|Hin]; [exists 1500%Z; vm_compute; reflexivity|].
    destruct (proj1 (elem_of_nil player) Hin).
Defined.
